(** * Pooling of token embeddings, the batch driver and the configuration
      lookups: a shallow embedding of [src/core/embeddings/llama_cpp.py]
      and [src/core/utils.py].

    Python values are modelled by the Rocq data they denote: a
    [List[List[float]]] is a [list (list F)] over the element type [F] of
    the array, a raised exception is the [Raise] branch of a result, a
    parsed JSON object is a finite map from strings to JSON values.

    The numeric kernels of numpy ([np.add], [np.maximum],
    [np.true_divide], the identity a sum starts from and the conversion
    of an element count) are not part of the repository: they are the
    operations of the class [Dtype].  The instance [float64] gives them
    their IEEE-754 binary64 meaning with the kernel's primitive floats;
    it is the [dtype] numpy chooses for a list of Python floats.  The
    order in which a reduction applies its kernel is numpy's: binary64
    addition rounds, and the sum depends on it. *)

From Stdlib Require Import PrimFloat FloatOps FloatAxioms SpecFloat Uint63 ZArith QArith Qcanon.
From stdpp Require Import base option list gmap strings numbers.

(** ** Python: exceptions and results *)

Module Py.

(** The exceptions the modelled code can raise.  [ProviderError] stands
    for whatever [llama_cpp.Llama.embed] raises. *)
Inductive exn : Type :=
| ValueError
| AxisError
| TypeError
| AttributeError
| KeyError (msg : string)
| FileNotFoundError
| JSONDecodeError
| ProviderError (msg : string).

Inductive result (A : Type) : Type :=
| Ok (a : A)
| Raise (e : exn).
Arguments Ok {A} a.
Arguments Raise {A} e.

Definition bind {A B : Type} (r : result A) (k : A -> result B) : result B :=
  match r with
  | Ok a => k a
  | Raise e => Raise e
  end.

Definition raises {A : Type} (r : result A) : Prop :=
  exists e, r = Raise e.

End Py.
Export Py.

Declare Scope py_scope.
Delimit Scope py_scope with py.
Notation "x <- r ;; k" := (Py.bind r (fun x => k))
  (at level 100, r at next level, right associativity) : py_scope.
Open Scope py_scope.

(** ** numpy: element types, arrays and the reductions along axis 0 *)

Class Dtype (F : Type) : Type := {
  zero : F;                      (* the value [np.add.reduce] starts from *)
  add : F -> F -> F;             (* np.add *)
  maximum : F -> F -> F;         (* np.maximum *)
  true_divide : F -> F -> F;     (* np.true_divide *)
  of_count : nat -> F            (* an element count, converted to the dtype *)
}.

(** IEEE-754 binary64.  [np.maximum] propagates a NaN from either side
    and otherwise keeps the larger argument.  Of two arguments that are
    equal for [==], which can only differ when they are the two zeros,
    the vectorised kernel keeps the second one; the properties below are
    stated with [==], [<=] and [isnan] and do not depend on that choice. *)
Definition float64_maximum (a b : float) : float :=
  if (PrimFloat.leb a b || PrimFloat.is_nan b)%bool then b else a.

#[export] Instance float64 : Dtype float := {
  zero := PrimFloat.zero;
  add := PrimFloat.add;
  maximum := float64_maximum;
  true_divide := PrimFloat.div;
  of_count n := PrimFloat.of_uint63 (Uint63.of_Z (Z.of_nat n))
}.

(** Two binary64 values that are the same number: equal for [==], which
    does not tell the two zeros apart, or both NaN. *)
Definition same_number (a b : float) : Prop :=
  PrimFloat.eqb a b = true \/
  (PrimFloat.is_nan a = true /\ PrimFloat.is_nan b = true).

(** Exact rational arithmetic, against which the rounding of [float64]
    can be compared. *)
Definition Qc_maximum (a b : Qc) : Qc :=
  if decide (b ≤ a)%Qc then a else b.

Definition exact : Dtype Qc := {|
  zero := 0%Qc;
  add := Qcplus;
  maximum := Qc_maximum;
  true_divide := Qcdiv;
  of_count n := Qc_of_Z (Z.of_nat n)
|}.

Section Numpy.
Context {F : Type} {dtype : Dtype F}.

(** An array of dimension at most two: all that [np.array] builds from a
    [List[List[float]]].  [Matrix d rows] has shape [(length rows, d)]. *)
Inductive ndarray : Type :=
| Scalar (x : F)
| Vector (xs : list F)
| Matrix (d : nat) (rows : list (list F)).

(** [np.array(token_embeddings)]: the empty list is the array of shape
    [(0,)]; rows of one length [d] give shape [(n, d)]; rows of different
    lengths have no shape and numpy raises [ValueError]. *)
Definition np_array (token_embeddings : list (list F)) : result ndarray :=
  match token_embeddings with
  | [] => Ok (Vector [])
  | r :: rs =>
      if forallb (fun r' => length r' =? length r) rs
      then Ok (Matrix (length r) (r :: rs))
      else Raise ValueError
  end.

(** The inner loop of [np.add] over a run of [n] elements that are
    contiguous in memory ([pairwise_sum] in numpy's [loops_utils.h]).
    Fewer than eight elements are added one by one to a zero.  Up to 128
    elements are added into eight partial sums, element [i] into the sum
    [i mod 8]; the partial sums are added pairwise and the [n mod 8]
    elements left over are added one by one.  A longer run is cut in two
    at a multiple of eight and the sums of the two parts are added. *)
Fixpoint pairwise_blocks (blocks : nat) (r xs : list F) : list F * list F :=
  match blocks with
  | 0 => (r, xs)
  | S blocks' => pairwise_blocks blocks' (zip_with add r (take 8 xs)) (drop 8 xs)
  end.

Definition pairwise_combine (r : list F) : F :=
  match r with
  | [r0; r1; r2; r3; r4; r5; r6; r7] =>
      add (add (add r0 r1) (add r2 r3)) (add (add r4 r5) (add r6 r7))
  | _ => zero
  end.

(** [fuel] bounds the depth of the cuts; a run is never cut more often
    than it has elements. *)
Fixpoint pairwise_sum_fuel (fuel : nat) (xs : list F) {struct fuel} : F :=
  let n := length xs in
  if n <? 8 then fold_left add xs zero
  else if n <=? 128 then
    let '(r, rest) := pairwise_blocks (n / 8 - 1) (take 8 xs) (drop 8 xs) in
    fold_left add rest (pairwise_combine r)
  else
    match fuel with
    | 0 => zero
    | S fuel' =>
        let n2 := n / 2 - (n / 2) mod 8 in
        add (pairwise_sum_fuel fuel' (take n2 xs))
            (pairwise_sum_fuel fuel' (drop n2 xs))
    end.

Definition pairwise_sum (xs : list F) : F := pairwise_sum_fuel (length xs) xs.

(** [np.add.reduce] along axis 0 of an array of shape [(n, d)], whose
    output starts at the identity.  For [d = 1] the [n] elements are one
    contiguous run and the inner loop adds its pairwise sum to the
    output; otherwise the inner loop runs along a row, and every row is
    added to the output in turn. *)
Definition add_reduce_rows (d : nat) (rows : list (list F)) : list F :=
  match d with
  | 1 => [add zero (pairwise_sum (concat rows))]
  | _ => fold_left (zip_with add) rows (replicate d zero)
  end.

(** [np.add.reduce(a, axis=0)].  An array of one dimension is one
    contiguous run. *)
Definition np_sum (a : ndarray) : result ndarray :=
  match a with
  | Scalar _ => Raise AxisError
  | Vector xs => Ok (Scalar (add zero (pairwise_sum xs)))
  | Matrix d rows => Ok (Vector (add_reduce_rows d rows))
  end.

(** The number of items reduced along axis 0. *)
Definition count_reduce_items (a : ndarray) : nat :=
  match a with
  | Scalar _ => 0
  | Vector xs => length xs
  | Matrix _ rows => length rows
  end.

(** [np.mean(a, axis=0)]: the sum along axis 0 divided by the count.  A
    count of zero is only warned about; the division is carried out. *)
Definition np_mean (a : ndarray) : result ndarray :=
  s <- np_sum a ;;
  let rcount := of_count (count_reduce_items a) in
  match s with
  | Scalar x => Ok (Scalar (true_divide x rcount))
  | Vector xs => Ok (Vector (map (fun x => true_divide x rcount) xs))
  | Matrix d rows => Ok (Matrix d (map (map (fun x => true_divide x rcount)) rows))
  end.

(** [np.max(a, axis=0)]: [np.maximum] has no identity, so the output
    starts at the first slice, and a reduction over no slice at all
    raises [ValueError]. *)
Definition np_max (a : ndarray) : result ndarray :=
  match a with
  | Scalar _ => Raise AxisError
  | Vector [] => Raise ValueError
  | Vector (x :: xs) => Ok (Scalar (fold_left maximum xs x))
  | Matrix _ [] => Raise ValueError
  | Matrix _ (r :: rs) => Ok (Vector (fold_left (zip_with maximum) rs r))
  end.

(** [np.concatenate((a, b))] joins along axis 0: arrays of dimension zero
    cannot be joined, and the other axes must agree. *)
Definition np_concatenate (a b : ndarray) : result ndarray :=
  match a, b with
  | Vector xs, Vector ys => Ok (Vector (xs ++ ys))
  | Matrix d1 r1, Matrix d2 r2 =>
      if d1 =? d2 then Ok (Matrix d1 (r1 ++ r2)) else Raise ValueError
  | _, _ => Raise ValueError
  end.

(** ** LlamaCppEmbeddings: the three pooling methods *)

Definition max_pooling (token_embeddings : list (list F)) : result ndarray :=
  token_embeddings_array <- np_array token_embeddings ;;
  np_max token_embeddings_array.

Definition average_pooling (token_embeddings : list (list F)) : result ndarray :=
  token_embeddings_array <- np_array token_embeddings ;;
  np_mean token_embeddings_array.

Definition concatenate_pooling (token_embeddings : list (list F)) : result ndarray :=
  avg_embedding <- average_pooling token_embeddings ;;
  max_embedding <- max_pooling token_embeddings ;;
  np_concatenate avg_embedding max_embedding.

(** ** What the specification compares the pooling with *)

(** Token vectors all of the same dimension [D]. *)
Definition uniform (D : nat) (rows : list (list F)) : Prop :=
  Forall (fun r => length r = D) rows.

(** Element [i] of every token vector, in the order of the tokens. *)
Definition column (i : nat) (rows : list (list F)) : list F :=
  map (fun r => nth i r zero) rows.

(** [np.maximum] folded over a non-empty sequence [x :: xs]. *)
Definition maximum_of (x : F) (xs : list F) : F :=
  fold_left maximum xs x.

End Numpy.
Arguments ndarray F : clear implicits.

(** [adds_up plus l v]: [v] is what some order of additions with [plus]
    makes of the elements of [l], each of them taken once. *)
Inductive adds_up {A : Type} (plus : A -> A -> A) : list A -> A -> Prop :=
| adds_up_one x : adds_up plus [x] x
| adds_up_add l1 l2 a b :
    adds_up plus l1 a -> adds_up plus l2 b -> adds_up plus (l1 ++ l2) (plus a b)
| adds_up_perm l l' a : l ≡ₚ l' -> adds_up plus l a -> adds_up plus l' a.

(** The arithmetic mean of a sequence of rational numbers: their sum
    over their number. *)
Definition arithmetic_mean (xs : list Qc) : Qc :=
  (foldr Qcplus 0 xs / Qc_of_Z (Z.of_nat (length xs)))%Qc.

(** The rational number that a finite binary64 value is. *)
Definition Qc_of_float (x : float) : option Qc :=
  match Prim2SF x with
  | S754_zero _ => Some 0%Qc
  | S754_finite s m e =>
      Some (Q2Qc ((if s then -1 else 1) * inject_Z (Z.pos m) * Qpower 2 e))
  | S754_infinity _ | S754_nan => None
  end.

(** ** LlamaCppEmbeddings.get_embeddings: the batch driver *)

Module Llm.

Section Provider.
(** What [self.llm.embed(text)] returns for one text. *)
Context {V : Type}.

(** The model provider.  The handle [self.llm] keeps state between calls,
    so the outcome of a call is a function of the text and of the texts
    it was called with before, oldest first. *)
Variable llm_embed : list string -> string -> result V.

(** A computation that calls the provider: from the calls made so far to
    its outcome and the calls made by its end. *)
Definition M (A : Type) : Type := list string -> result A * list string.

Definition ret {A : Type} (a : A) : M A := fun calls => (Ok a, calls).

Definition bind {A B : Type} (m : M A) (k : A -> M B) : M B :=
  fun calls =>
    match m calls with
    | (Ok a, calls') => k a calls'
    | (Raise e, calls') => (Raise e, calls')
    end.

Definition embed (text : string) : M V :=
  fun calls => (llm_embed calls text, calls ++ [text]).

(** [tqdm(iterable, desc=...)] yields the items of [iterable] in order
    and draws a progress bar. *)
Definition tqdm {A : Type} (iterable : list A) (desc : string) : list A :=
  iterable.

(** The [for] loop, with the list [embeddings] it appends to. *)
Fixpoint for_text (texts : list string) (embeddings : list V) : M (list V) :=
  match texts with
  | [] => ret embeddings
  | text :: texts' =>
      bind (embed text) (fun embedding =>
      for_text texts' (embeddings ++ [embedding]))
  end.

Definition get_embeddings (texts : list string) : M (list V) :=
  for_text (tqdm texts "Generating embeddings") [].

(** The provider returns a vector for each of [texts], called with them
    in order after [calls]. *)
Definition provider_answers (calls texts : list string) : Prop :=
  forall i text, texts !! i = Some text ->
    exists v, llm_embed (calls ++ take i texts) text = Ok v.

End Provider.

(** A stub provider with a fixed vector for each text. *)
Definition stub_provider (calls : list string) (text : string) : result (list Z) :=
  if String.eqb text "a" then Ok [1; 0; 0]%Z
  else if String.eqb text "b" then Ok [0; 1; 0]%Z
  else if String.eqb text "c" then Ok [0; 0; 1]%Z
  else Raise (ProviderError text).

End Llm.

(** ** Python: operations on [str] *)

Module PyStr.

(** [s[i:]] *)
Fixpoint slice_from (i : nat) (s : string) : string :=
  match i, s with
  | 0, _ => s
  | S _, EmptyString => EmptyString
  | S i', String _ rest => slice_from i' rest
  end.

(** [c in s] for a character [c]. *)
Fixpoint contains (c : Ascii.ascii) (s : string) : bool :=
  match s with
  | EmptyString => false
  | String a rest => Ascii.eqb a c || contains c rest
  end.

(** [s.rfind(c)] for a character [c]: the highest index at which [c]
    stands, or [-1].  The scan runs from the left; [i] is the index of
    the head of [s] and [last] the highest index found before it. *)
Fixpoint rfind_from (c : Ascii.ascii) (s : string) (i : nat) (last : Z) : Z :=
  match s with
  | EmptyString => last
  | String a rest =>
      rfind_from c rest (S i) (if Ascii.eqb a c then Z.of_nat i else last)
  end.

Definition rfind (c : Ascii.ascii) (s : string) : Z := rfind_from c s 0 (-1).

(** [s.startswith(prefix)] and [s.endswith(suffix)]. *)
Definition startswith (s prefix : string) : bool := String.prefix prefix s.

Fixpoint endswith (s suffix : string) : bool :=
  String.eqb s suffix ||
  match s with
  | EmptyString => false
  | String _ rest => endswith rest suffix
  end.

(** [s.replace(old, new)] for a non-empty [old]: the occurrences of [old]
    are found from the left and do not overlap; [skip] counts the
    characters of an occurrence still to be passed over. *)
Fixpoint replace_from (old new : string) (skip : nat) (s : string) : string :=
  match s with
  | EmptyString => EmptyString
  | String a rest =>
      match skip with
      | S k => replace_from old new k rest
      | 0 =>
          if String.prefix old s
          then new +:+ replace_from old new (String.length old - 1) rest
          else String a (replace_from old new 0 rest)
      end
  end.

(** With an empty [old], [new] is put before every character and at the
    end. *)
Fixpoint replace_empty (new s : string) : string :=
  match s with
  | EmptyString => new
  | String a rest => new +:+ String a (replace_empty new rest)
  end.

Definition replace (s old new : string) : string :=
  match old with
  | EmptyString => replace_empty new s
  | String _ _ => replace_from old new 0 s
  end.

(** The string with [f] applied to each of its characters. *)
Fixpoint map_chars (f : Ascii.ascii -> Ascii.ascii) (s : string) : string :=
  match s with
  | EmptyString => EmptyString
  | String a rest => String (f a) (map_chars f rest)
  end.

End PyStr.

(** ** os.path on POSIX *)

Module PosixPath.

(** The character [/]. *)
Definition sep : Ascii.ascii := Ascii.ascii_of_nat 47.

(** [os.path.basename(p)]: what follows the last separator. *)
Definition basename (p : string) : string :=
  let i := (PyStr.rfind sep p + 1)%Z in
  PyStr.slice_from (Z.to_nat i) p.

(** [os.path.join(a, b)]. *)
Definition join (a b : string) : string :=
  if PyStr.startswith b "/" then b
  else if String.eqb a "" || PyStr.endswith a "/" then a +:+ b
  else a +:+ "/" +:+ b.

(** The last component of a path, by recursion on the path. *)
Fixpoint last_component (p : string) : string :=
  match p with
  | EmptyString => EmptyString
  | String a rest =>
      if PyStr.contains sep rest then last_component rest
      else if Ascii.eqb a sep then rest
      else p
  end.

End PosixPath.

(** ** os: the exceptions of the directory functions *)

Module Os.

Inductive error : Type :=
| FileExistsError
| OSError.

Inductive outcome (A : Type) : Type :=
| Returned (a : A)
| Raised (e : error).
Arguments Returned {A} a.
Arguments Raised {A} e.

End Os.

(** ** utils: JSON files and the two lookups *)

(** What [json.load] returns. *)
#[local] Unset Elimination Schemes.
Inductive json : Type :=
| JNull
| JBool (b : bool)
| JInt (n : Z)
| JFloat (x : float)
| JStr (s : string)
| JArr (xs : list json)
| JObj (m : gmap string json).
#[local] Set Elimination Schemes.

(** A file is either the text of a JSON value or something [json.load]
    rejects. *)
Inductive file : Type :=
| JsonText (data : json)
| Malformed.

(** ** Python values handed to [json.dump] *)

(** The values [save_json] can be given: those of the basic types of
    JSON, numpy arrays, and objects of any other class (named by
    [cls]). *)
#[local] Unset Elimination Schemes.
Inductive pyval : Type :=
| PNone
| PBool (b : bool)
| PInt (n : Z)
| PFloat (x : float)
| PStr (s : string)
| PList (xs : list pyval)
| PDict (m : gmap string pyval)
| PArray (a : ndarray float)
| PObject (cls : string).
#[local] Set Elimination Schemes.

Module Json.

Fixpoint sequence_list {A : Type} (rs : list (result A)) : result (list A) :=
  match rs with
  | [] => Ok []
  | r :: rs' =>
      a <- r ;;
      rest <- sequence_list rs' ;;
      Ok (a :: rest)
  end.

(** An exception raised for one of the values of a [dict], if any. *)
Definition first_error {A : Type} (m : gmap string (result A)) : option exn :=
  map_fold (fun _ r acc => match r with Raise e => Some e | Ok _ => acc end) None m.

Definition returned {A : Type} (r : result A) : option A :=
  match r with
  | Ok a => Some a
  | Raise _ => None
  end.

Definition sequence_map {A : Type} (m : gmap string (result A))
  : result (gmap string A) :=
  match first_error m with
  | Some e => Raise e
  | None => Ok (omap returned m)
  end.

(** The encoder of [json.dump], up to the text it writes: what
    [json.load] reads back from that text.  [other] is what is done with
    an object that is of no basic type.  An integer is written whatever
    its size: the limit of the interpreter on the number of digits of an
    integer ([sys.set_int_max_str_digits]) is not modelled. *)
Fixpoint encode (other : pyval -> result json) (o : pyval) : result json :=
  match o with
  | PNone => Ok JNull
  | PBool b => Ok (JBool b)
  | PInt n => Ok (JInt n)
  | PFloat x => Ok (JFloat x)
  | PStr s => Ok (JStr s)
  | PList xs =>
      js <- sequence_list (map (encode other) xs) ;;
      Ok (JArr js)
  | PDict m =>
      js <- sequence_map (encode other <$> m) ;;
      Ok (JObj js)
  | PArray _ | PObject _ => other o
  end.

(** [json.dump(o, default=default)]: an object of no basic type is
    replaced by [default(o)], which is encoded in its place.  The
    replacement is encoded here without a further call of [default]. *)
Definition dumps (default : pyval -> result pyval) (o : pyval) : result json :=
  encode (fun o' =>
            replacement <- default o' ;;
            encode (fun _ => Raise TypeError) replacement) o.


End Json.

(** ** numpy: [ndarray.tolist] *)

Definition tolist (a : ndarray float) : pyval :=
  match a with
  | Scalar x => PFloat x
  | Vector xs => PList (map PFloat xs)
  | Matrix _ rows => PList (map (fun r => PList (map PFloat r)) rows)
  end.

(** What is read back for an array that was written as its list. *)
Definition array_json (a : ndarray float) : json :=
  match a with
  | Scalar x => JFloat x
  | Vector xs => JArr (map JFloat xs)
  | Matrix _ rows => JArr (map (fun r => JArr (map JFloat r)) rows)
  end.

Module Utils.

(** [needle in haystack] on two [str]: a substring test. *)
Fixpoint is_substring (needle haystack : string) : bool :=
  String.prefix needle haystack ||
  match haystack with
  | EmptyString => false
  | String _ rest => is_substring needle rest
  end.

Definition is_str (key : string) (j : json) : bool :=
  match j with
  | JStr s => String.eqb s key
  | _ => false
  end.

(** [key in data] for a [str] key. *)
Definition py_contains (key : string) (data : json) : result bool :=
  match data with
  | JObj m => Ok (bool_decide (is_Some (m !! key)))
  | JArr xs => Ok (existsb (is_str key) xs)
  | JStr s => Ok (is_substring key s)
  | JNull | JBool _ | JInt _ | JFloat _ => Raise TypeError
  end.

(** [data[key]] for a [str] key. *)
Definition py_getitem (data : json) (key : string) : result json :=
  match data with
  | JObj m =>
      match m !! key with
      | Some v => Ok v
      | None => Raise (KeyError key)
      end
  | _ => Raise TypeError
  end.

(** [data.get(key, default)]: only a [dict] has the method. *)
Definition py_get (data : json) (key : string) (default : json) : result json :=
  match data with
  | JObj m =>
      match m !! key with
      | Some v => Ok v
      | None => Ok default
      end
  | _ => Raise AttributeError
  end.

Section Files.
(** The files of the working directory, by path. *)
Variable fs : gmap string file.

Definition read_json (file_path : string) : result json :=
  match fs !! file_path with
  | None => Raise FileNotFoundError
  | Some Malformed => Raise JSONDecodeError
  | Some (JsonText data) => Ok data
  end.

Definition get_value_by_key_json (file_path key : string) : result json :=
  data <- read_json file_path ;;
  py_get data key (JStr "Key not found").

Definition get_prompt (key_name json_path : string) : result (json * json) :=
  json_data <- read_json json_path ;;
  found <- py_contains key_name json_data ;;
  if found : bool then
    entry <- py_getitem json_data key_name ;;
    system_prompt <- py_getitem entry "system_prompt" ;;
    entry' <- py_getitem json_data key_name ;;
    user_prompt <- py_getitem entry' "user_prompt" ;;
    Ok (system_prompt, user_prompt)
  else
    Raise (KeyError ("The key '" +:+ key_name +:+ "' does not exist in the JSON data.")).

End Files.

(** The default of [get_prompt]'s parameter [json_path]. *)
Definition default_json_path : string := "configs/prompts.json".

(** A context-length file that knows one model, one in which a model is
    bound to the message itself, and a file of prompts. *)
Definition context_lengths : gmap string file :=
  {[ "configs/context_lenght.json" :=
       JsonText (JObj {[ "org/model-a" := JInt 512 ]}) ]}.

Definition context_lengths' : gmap string file :=
  {[ "configs/context_lenght.json" :=
       JsonText (JObj {[ "org/model-b" := JStr "Key not found" ]}) ]}.

Definition prompts : gmap string file :=
  {[ "configs/prompts.json" :=
       JsonText (JObj {[ "summary" :=
         JObj (<[ "system_prompt" := JStr "You summarise." ]>
               {[ "user_prompt" := JStr "Summarise this." ]}) ]}) ]}.


Definition get_last_element_from_path (file_path : string) : string :=
  PosixPath.basename file_path.

Definition replace_character (input_string old_char new_char : string) : string :=
  PyStr.replace input_string old_char new_char.

(** The defaults of [replace_character]'s parameters [old_char] and
    [new_char]. *)
Definition default_old_char : string := "/".
Definition default_new_char : string := "_".

Section Directories.
(** The operating system: [os.listdir], [os.path.isfile] and the triples
    [(root, dirs, files)] that [os.walk] yields. *)
Variable listdir : string -> result (list string).
Variable isfile : string -> bool.
Variable walk : string -> list (string * list string * list string).

(** The message that is printed when [os.listdir] raises is not
    modelled. *)
Definition get_all_files_in_directory (directory : string) : list string :=
  match listdir directory with
  | Ok filenames =>
      fold_left
        (fun files filename =>
           let file_path := PosixPath.join directory filename in
           if isfile file_path then files ++ [file_path] else files)
        filenames []
  | Raise _ => []
  end.

Definition get_all_npy_files_in_directory (directory : string) : list string :=
  fold_left
    (fun npy_files '(root, _, files) =>
       fold_left
         (fun npy_files file =>
            if PyStr.endswith file ".npy"
            then npy_files ++ [PosixPath.join root file]
            else npy_files)
         files npy_files)
    (walk directory) [].

End Directories.

Definition convert_ndarray_to_list (obj : pyval) : result pyval :=
  match obj with
  | PArray a => Ok (tolist a)
  | _ => Raise TypeError
  end.

Section Writing.
(** [open(filename, 'w')]: whether the file can be opened for writing. *)
Variable open_w : string -> result unit.

(** [save_json] leaves the text that [json.dump] wrote.  When the encoder
    raises, the file has been emptied and holds the text written so far,
    which lacks its end and is no JSON text. *)
Definition save_json (data : pyval) (filename : string) (fs : gmap string file)
  : result unit * gmap string file :=
  match open_w filename with
  | Raise e => (Raise e, fs)
  | Ok _ =>
      match Json.dumps convert_ndarray_to_list data with
      | Ok j => (Ok tt, <[filename := JsonText j]> fs)
      | Raise e => (Raise e, <[filename := Malformed]> fs)
      end
  end.

End Writing.

Section Checks.
(** The state of the file system with [os.path.exists],
    [os.path.isfile] and [os.path.isdir] on it, and [os.makedirs], which
    changes it and either returns ([true]) or raises [OSError]
    ([false]). *)
Context {S : Type}.
Variable exists_ : S -> string -> bool.
Variable isfile : S -> string -> bool.
Variable isdir : S -> string -> bool.
Variable makedirs : S -> string -> bool * S.

Definition check_file_not_exists (s : S) (file_path : string) : Os.outcome unit :=
  if isfile s file_path then Os.Raised Os.FileExistsError
  else Os.Returned tt.

Definition check_directory_exists (s : S) (directory_path : string)
  : Os.outcome unit :=
  if exists_ s directory_path && isdir s directory_path
  then Os.Raised Os.FileExistsError
  else Os.Returned tt.

(** The message printed when [os.makedirs] raises is not modelled. *)
Definition create_directory (s : S) (directory_path : string)
  : Os.outcome bool * S :=
  if exists_ s directory_path then (Os.Raised Os.FileExistsError, s)
  else
    match makedirs s directory_path with
    | (true, s') => (Os.Returned true, s')
    | (false, s') => (Os.Returned false, s')
    end.

End Checks.

End Utils.

(** ** What the batch driver's outcome is compared with *)

Module LlmSpec.

(** What a computation returns, with [acc] put before the list. *)
Definition prepend {V : Type} (acc : list V) (r : result (list V) * list string)
  : result (list V) * list string :=
  match r with
  | (Ok out, calls) => (Ok (acc ++ out), calls)
  | (Raise e, calls) => (Raise e, calls)
  end.

End LlmSpec.

(** ** LlamaCppEmbeddings.__init__ *)

Module LlamaCppEmbeddings.

(** [llama_cpp.LLAMA_POOLING_TYPE_*]. *)
Inductive pooling_type : Type :=
| LLAMA_POOLING_TYPE_UNSPECIFIED
| LLAMA_POOLING_TYPE_NONE
| LLAMA_POOLING_TYPE_MEAN
| LLAMA_POOLING_TYPE_CLS
| LLAMA_POOLING_TYPE_LAST.

(** The keyword arguments [llama_cpp.Llama] is called with. *)
Record llama_kwargs : Type := {
  kw_model_path : string;
  kw_n_ctx : json;
  kw_n_gpu_layers : Z;
  kw_pooling_type : pooling_type;
  kw_embedding : bool
}.

Section Init.
(** The model handle, [hf_hub_download] and the constructor
    [llama_cpp.Llama]. *)
Context {Handle : Type}.
Variable hf_hub_download : string -> string -> result string.
Variable Llama : llama_kwargs -> result Handle.
Variable fs : gmap string file.

Record self : Type := { model_path : string; llm : Handle }.

Definition init (repo_id filename : string) (n_ctx : Z) : result self :=
  n_ctx <- Utils.get_value_by_key_json fs "configs/context_lenght.json" repo_id ;;
  model_path <- hf_hub_download repo_id filename ;;
  llm <- Llama {| kw_model_path := model_path;
                  kw_n_ctx := n_ctx;
                  kw_n_gpu_layers := -1;
                  kw_pooling_type := LLAMA_POOLING_TYPE_MEAN;
                  kw_embedding := true |} ;;
  Ok {| model_path := model_path; llm := llm |}.

End Init.

End LlamaCppEmbeddings.

(** * Properties *)

(** ** Reductions along axis 0, column by column *)

Section Reduce.
Context {F : Type} {dtype : Dtype F}.
Implicit Types (rows : list (list F)) (acc r v : list F) (op : F -> F -> F).

Lemma np_array_uniform rows D :
  rows <> [] -> uniform D rows -> np_array rows = Ok (Matrix D rows).
Proof.
  destruct rows as [|r rs]; [congruence|]. intros _ Hu.
  inversion_clear Hu as [|?? Hr Hrs]. unfold np_array.
  replace (forallb _ rs) with true; [by rewrite Hr|].
  symmetry. apply forallb_forall. intros r' Hin.
  rewrite Forall_forall in Hrs. apply Nat.eqb_eq.
  rewrite Hr. by apply Hrs.
Qed.

(** [np.array] succeeds on the empty list and on rows of one length
    only. *)
Lemma np_array_inv rows a :
  np_array rows = Ok a ->
  a = Vector [] /\ rows = [] \/
  exists D, a = Matrix D rows /\ rows <> [] /\ uniform D rows.
Proof.
  destruct rows as [|r rs]; simpl.
  - intros [= <-]. by left.
  - destruct (forallb _ rs) eqn:Hall; [|discriminate]. intros [= <-].
    right. exists (length r). split_and!; [done..|].
    constructor; [done|]. apply Forall_forall. intros r' Hin.
    rewrite forallb_forall in Hall. by apply Nat.eqb_eq, Hall.
Qed.

Lemma nth_zip_with op acc r i :
  i < length acc -> i < length r ->
  nth i (zip_with op acc r) zero = op (nth i acc zero) (nth i r zero).
Proof.
  revert r i. induction acc as [|a acc IH]; intros [|b r] [|i]; simpl; try lia.
  - done.
  - intros ??. apply IH; lia.
Qed.

Lemma length_fold_zip_with op rows acc D :
  length acc = D -> uniform D rows ->
  length (fold_left (zip_with op) rows acc) = D.
Proof.
  intros Hacc Hu. revert acc Hacc.
  induction Hu as [|r rows Hr _ IH]; intros acc Hacc; simpl; [done|].
  apply IH. rewrite length_zip_with. lia.
Qed.

(** Folding whole rows into an accumulator folds every column into the
    corresponding entry of the accumulator. *)
Lemma nth_fold_zip_with op rows acc D i :
  i < D -> length acc = D -> uniform D rows ->
  nth i (fold_left (zip_with op) rows acc) zero
  = fold_left op (column i rows) (nth i acc zero).
Proof.
  intros Hi Hacc Hu. revert acc Hacc.
  induction Hu as [|r rows Hr _ IH]; intros acc Hacc; simpl; [done|].
  rewrite IH by (rewrite length_zip_with; lia).
  by rewrite nth_zip_with by lia.
Qed.

Lemma nth_map_zero (f : F -> F) (l : list F) i :
  i < length l -> nth i (map f l) zero = f (nth i l zero).
Proof.
  revert i. induction l as [|x l IH]; intros [|i]; simpl; try lia; [done|].
  intros ?. apply IH. lia.
Qed.

Lemma nth_replicate_zero D i : nth i (replicate D zero) zero = zero.
Proof. revert i. induction D as [|D IH]; intros [|i]; simpl; auto. Qed.

Lemma length_column i rows : length (column i rows) = length rows.
Proof. unfold column. by rewrite length_map. Qed.

Lemma zip_with_replicate_zero v :
  zip_with add (replicate (length v) zero) v = map (add zero) v.
Proof. induction v as [|x v IH]; simpl; [done | by rewrite IH]. Qed.

(** An array of shape [(n, 1)] is its only column. *)
Lemma concat_uniform_1 rows : uniform 1 rows -> concat rows = column 0 rows.
Proof.
  induction 1 as [|r rows Hr _ IH]; simpl; [done|].
  destruct r as [|x [|??]]; try done. simpl. by rewrite IH.
Qed.

Lemma length_add_reduce_rows rows D :
  uniform D rows -> length (add_reduce_rows D rows) = D.
Proof.
  intros Hu. destruct D as [|[|D]]; [|done|];
    (apply length_fold_zip_with; [apply length_replicate | done]).
Qed.

(** Entry [i] of the sum along axis 0 is the sum of column [i]: the
    pairwise sum when the column is all of the array, and the sum from
    the first token to the last otherwise. *)
Lemma nth_add_reduce_rows rows D i :
  i < D -> uniform D rows ->
  nth i (add_reduce_rows D rows) zero
  = match D with
    | 1 => add zero (pairwise_sum (column i rows))
    | _ => fold_left add (column i rows) zero
    end.
Proof.
  intros Hi Hu. destruct D as [|[|D]]; [lia| |].
  - destruct i; [|lia]. simpl. by rewrite concat_uniform_1.
  - unfold add_reduce_rows.
    rewrite (nth_fold_zip_with add rows _ (S (S D)))
      by (done || apply length_replicate).
    by rewrite nth_replicate_zero.
Qed.

End Reduce.

(** ** The pairwise sum adds up its elements *)

Section PairwiseSum.
Context {F : Type} {dtype : Dtype F}.
Implicit Types (xs r b l : list F) (ls : list (list F)).

Lemma adds_up_nonempty l v : adds_up add l v -> l <> [].
Proof.
  induction 1 as [x|l1 l2 a b _ IH1 _ _|l l' a Hp _ IH]; [done| |].
  - by destruct l1.
  - intros ->. by apply Permutation_nil_r in Hp.
Qed.

Lemma adds_up_fold_left xs l a :
  adds_up add l a -> adds_up add (l ++ xs) (fold_left add xs a).
Proof.
  revert l a. induction xs as [|x xs IH]; intros l a Ha; simpl.
  - by rewrite app_nil_r.
  - rewrite (cons_middle x l xs), app_assoc. apply IH.
    apply adds_up_add; [done | constructor].
Qed.

Lemma adds_up_singletons r : Forall2 (adds_up add) (map (fun x => [x]) r) r.
Proof. induction r; constructor; [constructor | done]. Qed.

Lemma concat_singletons r : concat (map (fun x => [x]) r) = r.
Proof. induction r as [|x r IH]; simpl; [done | by rewrite IH]. Qed.

(** One turn of the unrolled loop adds an element to every partial sum. *)
Lemma adds_up_zip_with ls r b :
  Forall2 (adds_up add) ls r -> length b = length r ->
  Forall2 (adds_up add) (zip_with (fun l y => l ++ [y]) ls b) (zip_with add r b).
Proof.
  intros Hall. revert b.
  induction Hall as [|l a ls r Ha _ IH]; intros [|y b]; simpl; try done.
  intros [= Hlen]. constructor; [|by apply IH].
  apply adds_up_add; [done | constructor].
Qed.

Lemma concat_zip_with_snoc ls b :
  length ls = length b ->
  concat (zip_with (fun l y => l ++ [y]) ls b) ≡ₚ concat ls ++ b.
Proof.
  revert b. induction ls as [|l ls IH]; intros [|y b]; simpl; try done.
  intros [= Hlen]. rewrite (IH b Hlen), <- !app_assoc.
  apply Permutation_app_head. simpl.
  by rewrite (Permutation_middle (concat ls) b y).
Qed.

Lemma pairwise_blocks_adds_up blocks r xs ls :
  Forall2 (adds_up add) ls r -> length r = 8 -> 8 * blocks <= length xs ->
  exists ls',
    Forall2 (adds_up add) ls' (fst (pairwise_blocks blocks r xs)) /\
    length (fst (pairwise_blocks blocks r xs)) = 8 /\
    (concat ls' ++ snd (pairwise_blocks blocks r xs) ≡ₚ concat ls ++ xs).
Proof.
  revert r xs ls.
  induction blocks as [|blocks IH]; intros r xs ls Hall Hr Hxs; simpl.
  - by exists ls.
  - assert (Hb : length (take 8 xs) = 8) by (rewrite length_take; lia).
    assert (Hls : length ls = length r) by (eapply Forall2_length; eassumption).
    destruct (IH (zip_with add r (take 8 xs)) (drop 8 xs)
                 (zip_with (fun l y => l ++ [y]) ls (take 8 xs)))
      as (ls' & Hall' & Hlen' & Hp).
    + apply adds_up_zip_with; [done | lia].
    + rewrite length_zip_with. lia.
    + rewrite length_drop. lia.
    + exists ls'. split_and!; [done..|].
      rewrite Hp, concat_zip_with_snoc by lia.
      by rewrite <- app_assoc, take_drop.
Qed.

Lemma pairwise_combine_adds_up ls r :
  Forall2 (adds_up add) ls r -> length r = 8 ->
  adds_up add (concat ls) (pairwise_combine r).
Proof.
  intros Hall Hr.
  do 8 (destruct Hall as [|? ? ? ? ? Hall]; [done|]).
  destruct Hall; [|done]. simpl.
  eapply adds_up_perm; cycle 1.
  - repeat (apply adds_up_add || eassumption).
  - by rewrite app_nil_r, <- !app_assoc.
Qed.

Lemma pairwise_sum_fuel_adds_up fuel xs :
  length xs <= fuel ->
  adds_up add (if length xs <? 8 then zero :: xs else xs) (pairwise_sum_fuel fuel xs).
Proof.
  revert xs. induction fuel as [|fuel IH]; intros xs Hfuel.
  - destruct xs; [|simpl in Hfuel; lia]. simpl. constructor.
  - cbn [pairwise_sum_fuel].
    destruct (length xs <? 8) eqn:Hsmall.
    { apply (adds_up_fold_left xs [zero]). constructor. }
    apply Nat.ltb_ge in Hsmall.
    destruct (length xs <=? 128) eqn:Hblock.
    + apply Nat.leb_le in Hblock.
      destruct (pairwise_blocks_adds_up (length xs / 8 - 1) (take 8 xs)
                  (drop 8 xs) (map (fun x => [x]) (take 8 xs)))
        as (ls' & Hall' & Hlen' & Hp).
      * apply adds_up_singletons.
      * rewrite length_take. lia.
      * rewrite length_drop.
        pose proof (Nat.div_mod_eq (length xs) 8).
        pose proof (Nat.mod_upper_bound (length xs) 8). lia.
      * destruct (pairwise_blocks _ _ _) as [r rest]. simpl in *.
        apply (adds_up_perm add (concat ls' ++ rest)).
        { by rewrite Hp, concat_singletons, take_drop. }
        apply adds_up_fold_left. by apply pairwise_combine_adds_up.
    + apply Nat.leb_gt in Hblock.
      set (n2 := length xs / 2 - (length xs / 2) mod 8).
      assert (Hn2 : 8 <= n2 /\ n2 + 8 <= length xs).
      { unfold n2.
        pose proof (Nat.div_mod_eq (length xs) 2).
        pose proof (Nat.mod_upper_bound (length xs) 2).
        pose proof (Nat.mod_upper_bound (length xs / 2) 8). lia. }
      pose proof (IH (take n2 xs)) as IH1. pose proof (IH (drop n2 xs)) as IH2.
      rewrite length_take in IH1. rewrite length_drop in IH2.
      replace (n2 `min` length xs <? 8) with false in IH1
        by (symmetry; apply Nat.ltb_ge; lia).
      replace (length xs - n2 <? 8) with false in IH2
        by (symmetry; apply Nat.ltb_ge; lia).
      rewrite <- (take_drop n2 xs) at 1.
      apply adds_up_add; [apply IH1 | apply IH2]; lia.
Qed.

(** The depth of the cuts never exceeds the number of elements: with
    that much fuel or more, the sum is the same. *)
Lemma pairwise_sum_fuel_enough fuel xs :
  length xs <= fuel -> pairwise_sum_fuel fuel xs = pairwise_sum xs.
Proof.
  unfold pairwise_sum.
  enough (Hgen : forall fuel fuel' xs,
             length xs <= fuel -> length xs <= fuel' ->
             pairwise_sum_fuel fuel xs = pairwise_sum_fuel fuel' xs)
    by (intros Hfuel; by apply Hgen).
  clear fuel xs. induction fuel as [|fuel IH]; intros fuel' xs Hfuel Hfuel'.
  - destruct xs; [|simpl in Hfuel; lia]. by destruct fuel'.
  - destruct fuel' as [|fuel'].
    { destruct xs; [done | simpl in Hfuel'; lia]. }
    cbn [pairwise_sum_fuel].
    destruct (length xs <? 8); [done|].
    destruct (length xs <=? 128) eqn:Hblock; [done|].
    apply Nat.leb_gt in Hblock.
    set (n2 := length xs / 2 - (length xs / 2) mod 8).
    assert (Hn2 : 8 <= n2 /\ n2 + 8 <= length xs).
    { unfold n2.
      pose proof (Nat.div_mod_eq (length xs) 2).
      pose proof (Nat.mod_upper_bound (length xs) 2).
      pose proof (Nat.mod_upper_bound (length xs / 2) 8). lia. }
    f_equal; apply IH; rewrite ?length_take, ?length_drop; lia.
Qed.

(** The pairwise sum is a sum of all the elements of the run, and of one
    zero more when the run is shorter than eight. *)
Lemma pairwise_sum_adds_up xs :
  adds_up add (if length xs <? 8 then zero :: xs else xs) (pairwise_sum xs).
Proof. by apply pairwise_sum_fuel_adds_up. Qed.

(** Entry [i] of the sum along axis 0 is a sum of the elements of column
    [i] and of the zero, or the two zeros, the additions start from. *)
Lemma add_reduce_rows_adds_up (rows : list (list F)) D i :
  i < D -> uniform D rows ->
  exists k, adds_up add (replicate k zero ++ column i rows)
                    (nth i (add_reduce_rows D rows) zero).
Proof.
  intros Hi Hu. rewrite nth_add_reduce_rows by done.
  destruct D as [|[|D]]; [lia| |].
  - pose proof (pairwise_sum_adds_up (column i rows)) as Hsum.
    destruct (length (column i rows) <? 8).
    + exists 2. apply (adds_up_add add [zero] (zero :: column i rows)); [constructor | done].
    + exists 1. apply (adds_up_add add [zero] (column i rows)); [constructor | done].
  - exists 1. apply (adds_up_fold_left (column i rows) [zero]). constructor.
Qed.

End PairwiseSum.

(** ** The three pooling methods on a non-empty sequence *)

Section Pooling.
Context {F : Type} {dtype : Dtype F}.
Implicit Types (rows : list (list F)) (v : list F).

Lemma average_pooling_uniform rows D :
  rows <> [] -> uniform D rows ->
  average_pooling rows =
  Ok (Vector (map (fun x => true_divide x (of_count (length rows)))
                  (add_reduce_rows D rows))).
Proof.
  intros Hne Hu. unfold average_pooling.
  by rewrite (np_array_uniform rows D).
Qed.

Lemma max_pooling_uniform r rs D :
  uniform D (r :: rs) ->
  max_pooling (r :: rs) = Ok (Vector (fold_left (zip_with maximum) rs r)).
Proof.
  intros Hu. unfold max_pooling.
  by rewrite (np_array_uniform (r :: rs) D).
Qed.

Lemma length_max_rows r rs D :
  uniform D (r :: rs) -> length (fold_left (zip_with maximum) rs r) = D.
Proof.
  intros Hu. inversion_clear Hu as [|?? Hr Hrs]. by apply length_fold_zip_with.
Qed.

(** C3: for every non-empty sequence of token vectors of one dimension
    [D], [concatenate_pooling] returns a vector of dimension [2 * D]
    whose first [D] elements are the output of [average_pooling] and
    whose last [D] elements are the output of [max_pooling]. *)
Theorem concatenate_pooling_average_then_max rows D :
  rows <> [] -> uniform D rows ->
  exists avg mx v,
    average_pooling rows = Ok (Vector avg) /\
    max_pooling rows = Ok (Vector mx) /\
    concatenate_pooling rows = Ok (Vector v) /\
    length v = 2 * D /\ take D v = avg /\ drop D v = mx.
Proof.
  intros Hne Hu. unfold concatenate_pooling.
  rewrite (average_pooling_uniform rows D Hne Hu).
  destruct rows as [|r rs]; [done|].
  rewrite (max_pooling_uniform r rs D Hu). simpl.
  set (avg := map _ _). set (mx := fold_left _ rs r).
  assert (Hla : length avg = D)
    by (unfold avg; rewrite length_map; apply (length_add_reduce_rows (r :: rs) D Hu)).
  assert (Hlm : length mx = D) by apply (length_max_rows r rs D Hu).
  exists avg, mx, (avg ++ mx). split_and!; try done.
  - rewrite length_app. lia.
  - by rewrite <- Hla, take_app_length.
  - by rewrite <- Hla, drop_app_length.
Qed.

End Pooling.

(** ** Reordering the token sequence *)

Section Permutations.
Context {A : Type} (g : A -> A -> A).
Hypothesis g_assoc : forall x y z, g x (g y z) = g (g x y) z.
Hypothesis g_comm : forall x y, g x y = g y x.

Lemma fold_left_swap (a x y : A) : g (g a x) y = g (g a y) x.
Proof. by rewrite <- !g_assoc, (g_comm x y). Qed.

(** A left fold of an associative and commutative operation does not
    depend on the order of the list. *)
Lemma fold_left_permutation (l l' : list A) (a : A) :
  l ≡ₚ l' -> fold_left g l a = fold_left g l' a.
Proof.
  intros Hp. revert a.
  induction Hp as [|x l l' _ IH|x y l|l l1 l' _ IH1 _ IH2]; intros a; simpl.
  - done.
  - apply IH.
  - by rewrite fold_left_swap.
  - by rewrite IH1.
Qed.

(** The same for a fold that starts from the head of a non-empty list,
    which is what a reduction without identity does. *)
Lemma fold_left_head_permutation (l l' : list A) :
  l ≡ₚ l' ->
  forall x xs x' xs', l = x :: xs -> l' = x' :: xs' ->
  fold_left g xs x = fold_left g xs' x'.
Proof.
  induction 1 as [|y l l' Hp _|y z l|l l1 l' Hp1 IH1 Hp2 IH2];
    intros x xs x' xs'.
  - discriminate.
  - intros [= <- <-] [= <- <-]. by apply fold_left_permutation.
  - intros [= <- <-] [= <- <-]. simpl. by rewrite (g_comm z y).
  - intros -> ->. destruct l1 as [|x1 xs1].
    + by apply Permutation_nil_r in Hp1.
    + by rewrite (IH1 x xs x1 xs1), (IH2 x1 xs1 x' xs').
Qed.

End Permutations.

Section ZipWith.
Context {A : Type} (g : A -> A -> A).

Lemma zip_with_assoc :
  (forall x y z, g x (g y z) = g (g x y) z) ->
  forall l1 l2 l3 : list A,
    zip_with g l1 (zip_with g l2 l3) = zip_with g (zip_with g l1 l2) l3.
Proof.
  intros Hg l1. induction l1 as [|x l1 IH]; intros [|y l2] [|z l3]; simpl; try done.
  by rewrite Hg, IH.
Qed.

Lemma zip_with_comm :
  (forall x y, g x y = g y x) ->
  forall l1 l2 : list A, zip_with g l1 l2 = zip_with g l2 l1.
Proof.
  intros Hg l1. induction l1 as [|x l1 IH]; intros [|y l2]; simpl; try done.
  by rewrite Hg, IH.
Qed.

Lemma existsb_permutation (f : A -> bool) (l l' : list A) :
  l ≡ₚ l' -> existsb f l = existsb f l'.
Proof.
  induction 1 as [|x l l' _ IH|x y l|l l1 l' _ IH1 _ IH2]; simpl.
  - done.
  - by rewrite IH.
  - by destruct (f x), (f y).
  - by rewrite IH1.
Qed.

Lemma concat_permutation (ls ls' : list (list A)) :
  ls ≡ₚ ls' -> concat ls ≡ₚ concat ls'.
Proof.
  induction 1 as [|l ls ls' _ IH|l1 l2 ls|ls ls1 ls' _ IH1 _ IH2]; simpl.
  - done.
  - by rewrite IH.
  - by rewrite !app_assoc, (Permutation_app_comm l1 l2).
  - by rewrite IH1.
Qed.

End ZipWith.

(** ** Sums with an associative and commutative addition *)

Section SumsInAnyOrder.
Context {F : Type} {dtype : Dtype F}.
Hypothesis add_assoc : forall x y z : F, add x (add y z) = add (add x y) z.
Hypothesis add_comm : forall x y : F, add x y = add y x.
Implicit Types (xs ys l : list F) (rows : list (list F)).

Lemma fold_left_add_join l x y :
  add x (fold_left add l y) = fold_left add l (add x y).
Proof.
  revert y. induction l as [|z l IH]; intros y; simpl; [done|].
  by rewrite IH, add_assoc.
Qed.

(** Whatever the order of the additions, the outcome is that of adding
    the elements one after the other. *)
Lemma adds_up_fold_left_head l v :
  adds_up add l v -> forall x l', l ≡ₚ x :: l' -> v = fold_left add l' x.
Proof.
  induction 1 as [x0|l1 l2 a b H1 IH1 H2 IH2|l l0 a Hp _ IH]; intros x l' Hl.
  - apply Permutation_length_1_inv in Hl. by injection Hl as -> ->.
  - destruct l1 as [|x1 l1]; [by apply adds_up_nonempty in H1|].
    destruct l2 as [|x2 l2]; [by apply adds_up_nonempty in H2|].
    rewrite (IH1 x1 l1), (IH2 x2 l2) by done.
    rewrite fold_left_add_join.
    change (fold_left add l2 (add (fold_left add l1 x1) x2))
      with (fold_left add (x2 :: l2) (fold_left add l1 x1)).
    rewrite <- fold_left_app.
    by apply (fold_left_head_permutation add add_assoc add_comm
                ((x1 :: l1) ++ x2 :: l2) (x :: l')).
  - apply IH. by rewrite Hp.
Qed.

Lemma adds_up_unique l l' v v' :
  adds_up add l v -> adds_up add l' v' -> l ≡ₚ l' -> v = v'.
Proof.
  intros Hv Hv' Hp. destruct l as [|x l0]; [by apply adds_up_nonempty in Hv|].
  rewrite (adds_up_fold_left_head _ _ Hv x l0) by done.
  by rewrite (adds_up_fold_left_head _ _ Hv' x l0) by (by symmetry).
Qed.

Lemma pairwise_sum_permutation xs ys :
  xs ≡ₚ ys -> pairwise_sum xs = pairwise_sum ys.
Proof.
  intros Hp.
  apply (adds_up_unique _ _ _ _ (pairwise_sum_adds_up xs) (pairwise_sum_adds_up ys)).
  rewrite (Permutation_length Hp). destruct (_ <? 8); by rewrite Hp.
Qed.

Lemma add_reduce_rows_permutation rows rows' D :
  rows ≡ₚ rows' -> add_reduce_rows D rows' = add_reduce_rows D rows.
Proof.
  intros Hp.
  assert (Hfold : forall acc,
            fold_left (zip_with add) rows' acc = fold_left (zip_with add) rows acc).
  { intros acc. symmetry.
    apply (fold_left_permutation (zip_with add)
             (zip_with_assoc add add_assoc) (zip_with_comm add add_comm)), Hp. }
  destruct D as [|[|D]]; [apply Hfold| |apply Hfold].
  simpl. do 2 f_equal. symmetry.
  by apply pairwise_sum_permutation, concat_permutation.
Qed.

(** With a zero that is neutral, the pairwise sum is the sum from the
    first element to the last. *)
Lemma add_zero_pairwise_sum xs :
  (forall x : F, add zero x = x) ->
  add zero (pairwise_sum xs) = fold_left add xs zero.
Proof.
  intros Hzero. rewrite Hzero.
  pose proof (pairwise_sum_adds_up xs) as Hsum.
  destruct (length xs <? 8).
  - by apply (adds_up_fold_left_head _ _ Hsum).
  - destruct xs as [|x xs]; [by apply adds_up_nonempty in Hsum|].
    simpl. rewrite Hzero. by apply (adds_up_fold_left_head _ _ Hsum).
Qed.

End SumsInAnyOrder.

Section OrderInvariance.
Context {F : Type} {dtype : Dtype F}.
Implicit Types rows : list (list F).

Lemma uniform_permutation rows rows' D :
  rows ≡ₚ rows' -> uniform D rows -> uniform D rows'.
Proof. unfold uniform. by intros ->. Qed.

Lemma column_permutation rows rows' i :
  rows ≡ₚ rows' -> column i rows ≡ₚ column i rows'.
Proof. intros Hp. unfold column. by apply Permutation_map. Qed.

(** With an associative and commutative addition and maximum, the two
    poolings do not depend on the order of the tokens. *)
Lemma pooling_permutation_assoc_comm rows rows' D :
  (forall x y z : F, add x (add y z) = add (add x y) z) ->
  (forall x y : F, add x y = add y x) ->
  (forall x y z : F, maximum x (maximum y z) = maximum (maximum x y) z) ->
  (forall x y : F, maximum x y = maximum y x) ->
  rows <> [] -> uniform D rows -> rows ≡ₚ rows' ->
  average_pooling rows' = average_pooling rows /\
  max_pooling rows' = max_pooling rows.
Proof.
  intros Haa Hac Hma Hmc Hne Hu Hp.
  assert (Hu' : uniform D rows') by by apply (uniform_permutation rows).
  assert (Hne' : rows' <> []).
  { intros ->. by apply Permutation_nil_r in Hp. }
  split.
  - rewrite !(average_pooling_uniform _ D) by done.
    rewrite <- (Permutation_length Hp).
    by rewrite (add_reduce_rows_permutation Haa Hac rows rows' D Hp).
  - destruct rows as [|r rs]; [done|]. destruct rows' as [|r' rs']; [done|].
    rewrite (max_pooling_uniform r rs D), (max_pooling_uniform r' rs' D) by done.
    do 2 f_equal. symmetry.
    by apply (fold_left_head_permutation (zip_with maximum)
                (zip_with_assoc maximum Hma) (zip_with_comm maximum Hmc)
                (r :: rs) (r' :: rs')).
Qed.

End OrderInvariance.

(** The laws of exact rational arithmetic. *)
Section Exact.
Open Scope Qc_scope.

Lemma Qc_maximum_comm (x y : Qc) : Qc_maximum x y = Qc_maximum y x.
Proof.
  unfold Qc_maximum. repeat case_decide; try done.
  - by apply Qcle_antisym.
  - exfalso. assert (x < y) by by apply Qcnot_le_lt.
    assert (y < x) by by apply Qcnot_le_lt.
    apply (Qclt_not_le x y); [done | by apply Qclt_le_weak].
Qed.

Lemma Qc_maximum_assoc (x y z : Qc) :
  Qc_maximum x (Qc_maximum y z) = Qc_maximum (Qc_maximum x y) z.
Proof.
  unfold Qc_maximum.
  repeat (case_decide; try done);
    repeat match goal with
           | Hn : ~ (_ <= _) |- _ => apply Qcnot_le_lt, Qclt_le_weak in Hn
           end;
    try (apply Qcle_antisym; done || (etrans; eassumption)).
  all: exfalso;
    match goal with
    | Hn : ~ (?a <= ?b) |- _ => apply Hn; done || (etrans; eassumption)
    end.
Qed.

(** In exact arithmetic every entry of [average_pooling] is the
    arithmetic mean of its column. *)
Lemma exact_average_pooling (rows : list (list Qc)) D :
  rows <> [] -> uniform D rows ->
  exists v, average_pooling (dtype := exact) rows = Ok (Vector v) /\
    length v = D /\
    forall i, (i < D)%nat ->
      nth i v 0 = arithmetic_mean (column (dtype := exact) i rows).
Proof.
  intros Hne Hu. eexists. split; [by apply average_pooling_uniform|].
  pose proof (length_add_reduce_rows (dtype := exact) rows D Hu) as Hlen.
  split; [by rewrite length_map|].
  intros i Hi. rewrite (nth_map_zero (dtype := exact)) by lia.
  rewrite (nth_add_reduce_rows (dtype := exact)) by done.
  unfold arithmetic_mean. rewrite (length_column (dtype := exact)).
  assert (Hsum : fold_left Qcplus (column (dtype := exact) i rows) 0
                 = foldr Qcplus 0 (column (dtype := exact) i rows)).
  { apply fold_symmetric; [apply Qcplus_assoc|]. intros y. apply Qcplus_comm. }
  change (@true_divide Qc exact) with Qcdiv.
  change (@of_count Qc exact (length rows)) with (Qc_of_Z (Z.of_nat (length rows))).
  f_equal. rewrite <- Hsum.
  destruct D as [|[|D]]; [done| |done].
  apply (add_zero_pairwise_sum (dtype := exact));
    [apply Qcplus_assoc | apply Qcplus_comm | apply Qcplus_0_l].
Qed.

End Exact.

(** C1, as the code has it: for every non-empty sequence of token vectors
    of one dimension [D], [average_pooling] returns a vector of dimension
    [D].  For binary64 token vectors its element [i] is a sum of the
    elements [i] of all token vectors and of the zero (or zeros) the sum
    starts from, added in some order by the rounding addition of
    binary64, divided by the number of tokens.  Computed in exact
    rational arithmetic, element [i] is the arithmetic mean of the
    elements [i].  In binary64 every addition rounds, and the element
    need not be the mean. *)
Theorem average_pooling_columnwise_mean :
  (forall (rows : list (list float)) D,
      rows <> [] -> uniform D rows ->
      exists v, average_pooling rows = Ok (Vector v) /\ length v = D /\
        forall i, i < D ->
          exists k s,
            adds_up PrimFloat.add (replicate k 0%float ++ column i rows) s /\
            nth i v 0%float
            = PrimFloat.div s
                (PrimFloat.of_uint63 (Uint63.of_Z (Z.of_nat (length rows))))) /\
  (forall (rows : list (list Qc)) D,
      rows <> [] -> uniform D rows ->
      exists v, average_pooling (dtype := exact) rows = Ok (Vector v) /\
        length v = D /\
        forall i, i < D ->
          nth i v 0%Qc = arithmetic_mean (column (dtype := exact) i rows)).
Proof.
  split.
  - intros rows D Hne Hu. eexists.
    split; [by apply average_pooling_uniform|].
    pose proof (length_add_reduce_rows rows D Hu) as Hlen.
    split; [by rewrite length_map|].
    intros i Hi. destruct (add_reduce_rows_adds_up rows D i Hi Hu) as [k Hsum].
    exists k. eexists. split; [exact Hsum|].
    by rewrite (nth_map_zero (dtype := float64)) by lia.
  - apply exact_average_pooling.
Qed.

(** ** The order of binary64 values *)

Ltac cmp_cases :=
  repeat match goal with
         | H : context [Z.compare ?a ?b] |- _ =>
             destruct (Z.compare_spec a b); simpl in H
         | H : context [Pos.compare_cont Eq ?a ?b] |- _ =>
             change (Pos.compare_cont Eq a b) with (Pos.compare a b) in H;
             destruct (Pos.compare_spec a b); simpl in H
         | |- context [Z.compare ?a ?b] =>
             destruct (Z.compare_spec a b); simpl
         | |- context [Pos.compare_cont Eq ?a ?b] =>
             change (Pos.compare_cont Eq a b) with (Pos.compare a b);
             destruct (Pos.compare_spec a b); simpl
         end.

Section SpecFloatOrder.
Implicit Types x y z : spec_float.

Lemma SFleb_trans x y z :
  SFleb x y = true -> SFleb y z = true -> SFleb x z = true.
Proof.
  unfold SFleb, SFcompare.
  destruct x as [[]|[]| |[] m1 e1], y as [[]|[]| |[] m2 e2], z as [[]|[]| |[] m3 e3];
    simpl; try done; intros H1 H2; cmp_cases; try done; try lia.
Qed.

Lemma SFleb_total x y :
  SFeqb x x = true -> SFeqb y y = true -> SFleb x y = true \/ SFleb y x = true.
Proof.
  unfold SFleb, SFeqb, SFcompare.
  destruct x as [[]|[]| |[] m1 e1], y as [[]|[]| |[] m2 e2];
    simpl; try done; intros _ _; auto; cmp_cases; auto; try lia.
Qed.

Lemma SFleb_not_nan x y :
  SFleb x y = true -> SFeqb x x = true /\ SFeqb y y = true.
Proof.
  unfold SFleb, SFeqb, SFcompare.
  destruct x as [[]|[]| |[] m1 e1], y as [[]|[]| |[] m2 e2];
    simpl; try done; intros _;
    rewrite ?Z.compare_refl, ?Pos.compare_cont_refl; done.
Qed.

Lemma SFeqb_leb x y :
  SFeqb x y = true <-> SFleb x y = true /\ SFleb y x = true.
Proof.
  unfold SFleb, SFeqb, SFcompare.
  destruct x as [[]|[]| |[] m1 e1], y as [[]|[]| |[] m2 e2];
    simpl; try (split; [done | intros []; done]); try (split; done);
    cmp_cases; try (split; [done | intros []; done]); try (split; done); try lia.
Qed.

End SpecFloatOrder.

Section Float64Order.
Implicit Types a b c : float.

Lemma is_nan_spec a :
  PrimFloat.is_nan a = negb (SFeqb (Prim2SF a) (Prim2SF a)).
Proof. unfold PrimFloat.is_nan. by rewrite FloatAxioms.eqb_spec. Qed.

Lemma float64_leb_trans a b c :
  PrimFloat.leb a b = true -> PrimFloat.leb b c = true -> PrimFloat.leb a c = true.
Proof. rewrite !FloatAxioms.leb_spec. apply SFleb_trans. Qed.

Lemma float64_leb_total a b :
  PrimFloat.is_nan a = false -> PrimFloat.is_nan b = false ->
  PrimFloat.leb a b = true \/ PrimFloat.leb b a = true.
Proof.
  rewrite !is_nan_spec, !FloatAxioms.leb_spec, !negb_false_iff.
  apply SFleb_total.
Qed.

Lemma float64_leb_refl a : PrimFloat.is_nan a = false -> PrimFloat.leb a a = true.
Proof. intros Ha. by destruct (float64_leb_total a a Ha Ha). Qed.

Lemma float64_leb_not_nan a b :
  PrimFloat.leb a b = true ->
  PrimFloat.is_nan a = false /\ PrimFloat.is_nan b = false.
Proof.
  rewrite !is_nan_spec, !FloatAxioms.leb_spec, !negb_false_iff.
  apply SFleb_not_nan.
Qed.

Lemma float64_eqb_leb a b :
  PrimFloat.eqb a b = true <->
  PrimFloat.leb a b = true /\ PrimFloat.leb b a = true.
Proof. rewrite FloatAxioms.eqb_spec, !FloatAxioms.leb_spec. apply SFeqb_leb. Qed.

(** [np.maximum] returns one of its arguments, a NaN as soon as one of
    them is, and otherwise a value that neither exceeds. *)
Lemma float64_maximum_cases a b :
  float64_maximum a b = a \/ float64_maximum a b = b.
Proof. unfold float64_maximum. destruct (_ || _); auto. Qed.

Lemma is_nan_float64_maximum a b :
  PrimFloat.is_nan (float64_maximum a b)
  = PrimFloat.is_nan a || PrimFloat.is_nan b.
Proof.
  unfold float64_maximum.
  destruct (PrimFloat.leb a b) eqn:Hle.
  - apply float64_leb_not_nan in Hle as [Ha Hb]. simpl. by rewrite Ha, Hb.
  - simpl. destruct (PrimFloat.is_nan b) eqn:Hb;
      [by rewrite Hb, orb_true_r | by rewrite orb_false_r].
Qed.

Lemma float64_maximum_upper a b :
  PrimFloat.is_nan a = false -> PrimFloat.is_nan b = false ->
  PrimFloat.leb a (float64_maximum a b) = true /\
  PrimFloat.leb b (float64_maximum a b) = true.
Proof.
  intros Ha Hb. unfold float64_maximum. rewrite Hb, orb_false_r.
  destruct (PrimFloat.leb a b) eqn:Hle.
  - split; [done | by apply float64_leb_refl].
  - split; [by apply float64_leb_refl|].
    destruct (float64_leb_total a b Ha Hb); [congruence | done].
Qed.

(** The maximum of a column of binary64 values is NaN as soon as the
    column holds one. *)
Lemma is_nan_maximum_of (xs : list float) a :
  PrimFloat.is_nan (maximum_of a xs)
  = PrimFloat.is_nan a || existsb PrimFloat.is_nan xs.
Proof.
  revert a. induction xs as [|b xs IH]; intros a; simpl.
  - by rewrite orb_false_r.
  - unfold maximum_of in *. simpl. rewrite IH.
    change (maximum a b) with (float64_maximum a b).
    by rewrite is_nan_float64_maximum, orb_assoc.
Qed.

(** Without a NaN it is an element of the column that no element
    exceeds. *)
Lemma maximum_of_upper (xs : list float) a :
  PrimFloat.is_nan a = false -> existsb PrimFloat.is_nan xs = false ->
  maximum_of a xs ∈ a :: xs /\
  Forall (fun b => PrimFloat.leb b (maximum_of a xs) = true) (a :: xs).
Proof.
  revert a. induction xs as [|b xs IH]; intros a Ha Hxs.
  - split; [by left|]. constructor; [by apply float64_leb_refl | done].
  - simpl in Hxs. apply orb_false_iff in Hxs as [Hb Hxs].
    change (maximum_of a (b :: xs)) with (maximum_of (float64_maximum a b) xs).
    destruct (IH (float64_maximum a b)) as [Hin Hall];
      [by rewrite is_nan_float64_maximum, Ha, Hb | done |].
    destruct (float64_maximum_upper a b Ha Hb) as [Hla Hlb].
    inversion_clear Hall as [|?? Hm Hrest]. split.
    + apply elem_of_cons in Hin as [-> | Hin].
      * destruct (float64_maximum_cases a b) as [-> | ->];
          [by left | by right; left].
      * by right; right.
    + repeat constructor; [..|done].
      * by apply (float64_leb_trans a (float64_maximum a b)).
      * by apply (float64_leb_trans b (float64_maximum a b)).
Qed.

(** So two orders of one column have the same number for maximum. *)
Lemma maximum_of_permutation (xs xs' : list float) a a' :
  a :: xs ≡ₚ a' :: xs' ->
  same_number (maximum_of a xs) (maximum_of a' xs').
Proof.
  intros Hp.
  pose proof (existsb_permutation PrimFloat.is_nan _ _ Hp) as Hnan. simpl in Hnan.
  destruct (PrimFloat.is_nan a || existsb PrimFloat.is_nan xs) eqn:Hl.
  - right. by rewrite !is_nan_maximum_of, Hl, <- Hnan.
  - left. symmetry in Hnan.
    apply orb_false_iff in Hl as [Ha Hxs], Hnan as [Ha' Hxs'].
    destruct (maximum_of_upper xs a Ha Hxs) as [Hin Hall].
    destruct (maximum_of_upper xs' a' Ha' Hxs') as [Hin' Hall'].
    rewrite Forall_forall in Hall, Hall'.
    apply float64_eqb_leb. split.
    + apply Hall'. apply list_elem_of_In. by rewrite <- Hp.
    + apply Hall. apply list_elem_of_In. by rewrite Hp.
Qed.

(** [max_pooling] of binary64 token vectors returns the same numbers
    whatever the order of the tokens. *)
Lemma float64_max_pooling_permutation (rows rows' : list (list float)) D :
  rows <> [] -> uniform D rows -> rows ≡ₚ rows' ->
  exists v v',
    max_pooling rows = Ok (Vector v) /\ max_pooling rows' = Ok (Vector v') /\
    length v = D /\ length v' = D /\
    forall i, i < D -> same_number (nth i v zero) (nth i v' zero).
Proof.
  intros Hne Hu Hp.
  assert (Hu' : uniform D rows') by by apply (uniform_permutation rows).
  destruct rows as [|r rs]; [done|]. destruct rows' as [|r' rs'].
  { by apply Permutation_nil_r in Hp. }
  rewrite (max_pooling_uniform r rs D Hu), (max_pooling_uniform r' rs' D Hu').
  do 2 eexists. split_and!; [done | done | by apply length_max_rows..|].
  intros i Hi.
  inversion Hu as [|?? Hr Hrs]. inversion Hu' as [|?? Hr' Hrs']. subst.
  rewrite (nth_fold_zip_with maximum rs r (length r)) by done.
  rewrite (nth_fold_zip_with maximum rs' r' (length r)) by done.
  apply maximum_of_permutation.
  apply (column_permutation (r :: rs) (r' :: rs') i Hp).
Qed.

End Float64Order.

(** C5, as the code has it: on every permutation of a non-empty sequence
    of token vectors of one dimension, [max_pooling] of binary64 vectors
    returns entry by entry the same numbers as on the sequence itself
    (the sign of a zero apart); and for an element type whose addition
    and maximum are associative and commutative, as in exact arithmetic,
    both [average_pooling] and [max_pooling] return the very same
    result.  The addition of binary64 rounds and is not associative. *)
Theorem pooling_permutation :
  (forall (rows rows' : list (list float)) D,
      rows <> [] -> uniform D rows -> rows ≡ₚ rows' ->
      exists v v',
        max_pooling rows = Ok (Vector v) /\ max_pooling rows' = Ok (Vector v') /\
        length v = D /\ length v' = D /\
        forall i, i < D -> same_number (nth i v zero) (nth i v' zero)) /\
  (forall (F : Type) (dtype : Dtype F) (rows rows' : list (list F)) D,
      (forall x y z : F, add x (add y z) = add (add x y) z) ->
      (forall x y : F, add x y = add y x) ->
      (forall x y z : F, maximum x (maximum y z) = maximum (maximum x y) z) ->
      (forall x y : F, maximum x y = maximum y x) ->
      rows <> [] -> uniform D rows -> rows ≡ₚ rows' ->
      average_pooling rows' = average_pooling rows /\
      max_pooling rows' = max_pooling rows).
Proof.
  split.
  - intros rows rows' D Hne Hu Hp.
    by apply float64_max_pooling_permutation.
  - intros F dtype rows rows' D Haa Hac Hma Hmc Hne Hu Hp.
    by apply (pooling_permutation_assoc_comm rows rows' D).
Qed.

(** ** Binary64 arithmetic: NaN, zero and one *)

Section Float64Arithmetic.
Implicit Types (a b x : float) (xs l : list float).

Lemma SFeqb_refl_nan (x : spec_float) :
  SFeqb x x = false <-> x = S754_nan.
Proof.
  unfold SFeqb, SFcompare.
  destruct x as [[]|[]| |[] m e]; simpl;
    rewrite ?Z.compare_refl, ?Pos.compare_cont_refl; simpl; split; done.
Qed.

Lemma is_nan_Prim2SF a : PrimFloat.is_nan a = true <-> Prim2SF a = S754_nan.
Proof. by rewrite is_nan_spec, negb_true_iff, SFeqb_refl_nan. Qed.

(** A NaN on either side of an addition, or above a division, gives a
    NaN. *)
Lemma is_nan_add a b :
  PrimFloat.is_nan a = true \/ PrimFloat.is_nan b = true ->
  PrimFloat.is_nan (PrimFloat.add a b) = true.
Proof.
  rewrite !is_nan_Prim2SF, FloatAxioms.add_spec. unfold SF64add.
  intros [-> | ->]; [done|]. by destruct (Prim2SF a).
Qed.

Lemma is_nan_div a b :
  PrimFloat.is_nan a = true -> PrimFloat.is_nan (PrimFloat.div a b) = true.
Proof.
  rewrite !is_nan_Prim2SF, FloatAxioms.div_spec. unfold SF64div.
  by intros ->.
Qed.

Lemma is_nan_sum_acc xs a :
  PrimFloat.is_nan a = true ->
  PrimFloat.is_nan (fold_left PrimFloat.add xs a) = true.
Proof.
  revert a. induction xs as [|b xs IH]; intros a Ha; simpl; [done|].
  apply IH, is_nan_add. by left.
Qed.

Lemma is_nan_sum xs a :
  existsb PrimFloat.is_nan xs = true ->
  PrimFloat.is_nan (fold_left PrimFloat.add xs a) = true.
Proof.
  revert a. induction xs as [|b xs IH]; intros a; simpl; [done|].
  intros [Hb | Hxs]%orb_true_iff.
  - apply is_nan_sum_acc, is_nan_add. by right.
  - by apply IH.
Qed.

(** A NaN among the elements is in every sum of them. *)
Lemma adds_up_nan l (v : float) :
  adds_up PrimFloat.add l v ->
  existsb PrimFloat.is_nan l = true -> PrimFloat.is_nan v = true.
Proof.
  induction 1 as [x|l1 l2 a b _ IH1 _ IH2|l l' a Hp _ IH]; simpl.
  - by rewrite orb_false_r.
  - rewrite existsb_app. intros [H1 | H2]%orb_true_iff; apply is_nan_add; auto.
  - rewrite <- (existsb_permutation PrimFloat.is_nan l l' Hp). apply IH.
Qed.

Lemma is_nan_pairwise_sum xs :
  existsb PrimFloat.is_nan xs = true ->
  PrimFloat.is_nan (pairwise_sum xs) = true.
Proof.
  intros Hnan. eapply adds_up_nan; [exact (pairwise_sum_adds_up xs)|].
  destruct (_ <? 8); [|done]. simpl. by rewrite Hnan.
Qed.

(** Division by one is exact: the quotient of the mantissa of [x],
    shifted to the left, by the mantissa [2^52] of one has no remainder,
    and nothing is left to round. *)
Lemma div_eucl_shiftl (m : positive) (k : Z) :
  (0 <= k)%Z ->
  Z.div_eucl (Z.shiftl (Z.pos m) (52 + k)) 4503599627370496
  = (Z.shiftl (Z.pos m) k, 0%Z).
Proof.
  intros Hk.
  assert (Hs : Z.shiftl (Z.pos m) (52 + k)
               = (Z.shiftl (Z.pos m) k * 4503599627370496)%Z).
  { rewrite !Z.shiftl_mul_pow2 by lia. rewrite Z.pow_add_r by lia.
    change (2 ^ 52)%Z with 4503599627370496%Z. lia. }
  rewrite Hs.
  pose proof (Z.div_mul (Z.shiftl (Z.pos m) k) 4503599627370496 ltac:(lia)) as Hq.
  pose proof (Z.mod_mul (Z.shiftl (Z.pos m) k) 4503599627370496 ltac:(lia)) as Hr.
  unfold Z.div, Z.modulo in Hq, Hr.
  destruct (Z.div_eucl _ _) as [q r]. by subst.
Qed.

Lemma SFdiv_core_one_subnormal m :
  (Z.pos (digits2_pos m) <= 53)%Z ->
  SFdiv_core_binary 53 1024 (Z.pos m) (-1074) 4503599627370496 (-52)
  = (Z.pos m, (-1074)%Z, loc_Exact).
Proof.
  intros Hd. unfold SFdiv_core_binary.
  change (Zdigits2 (Z.pos m)) with (Z.pos (digits2_pos m)).
  change (Zdigits2 4503599627370496) with 53%Z.
  replace (Z.min _ _) with (-1074)%Z by (unfold fexp, emin; lia).
  change (-1074 - -52 - -1074)%Z with 52%Z. cbv iota beta zeta.
  change 52%Z with (52 + 0)%Z. by rewrite div_eucl_shiftl.
Qed.

Lemma SFdiv_core_one_normal m e :
  Z.pos (digits2_pos m) = 53%Z -> (-1074 < e)%Z ->
  SFdiv_core_binary 53 1024 (Z.pos m) e 4503599627370496 (-52)
  = (Z.pos m~0, (e - 1)%Z, loc_Exact).
Proof.
  intros Hd He. unfold SFdiv_core_binary.
  change (Zdigits2 (Z.pos m)) with (Z.pos (digits2_pos m)).
  change (Zdigits2 4503599627370496) with 53%Z.
  replace (Z.min _ _) with (e - 1)%Z by (unfold fexp, emin; lia).
  replace (e - -52 - (e - 1))%Z with 53%Z by lia. cbv iota beta zeta.
  change 53%Z with (52 + 1)%Z. by rewrite div_eucl_shiftl.
Qed.

Lemma binary_round_aux_canonical s m e :
  fexp 53 1024 (Z.pos (digits2_pos m) + e) = e -> (e <= 971)%Z ->
  binary_round_aux 53 1024 s (Z.pos m) e loc_Exact = S754_finite s m e.
Proof.
  intros Hc He. unfold binary_round_aux, shr_fexp.
  change (Zdigits2 (Z.pos m)) with (Z.pos (digits2_pos m)).
  rewrite Hc, Z.sub_diag. simpl.
  change (Zdigits2 (Z.pos m)) with (Z.pos (digits2_pos m)).
  rewrite Hc, Z.sub_diag. simpl.
  change (1024 - 53)%Z with 971%Z. by rewrite (proj2 (Z.leb_le e 971) He).
Qed.

Lemma binary_round_aux_double s m e :
  Z.pos (digits2_pos m) = 53%Z -> (-1074 < e)%Z -> (e <= 971)%Z ->
  binary_round_aux 53 1024 s (Z.pos m~0) (e - 1) loc_Exact = S754_finite s m e.
Proof.
  intros Hd Hlo He. unfold binary_round_aux, shr_fexp.
  change (Zdigits2 (Z.pos m~0)) with (Z.pos (Pos.succ (digits2_pos m))).
  replace (fexp 53 1024 (Z.pos (Pos.succ (digits2_pos m)) + (e - 1)) - (e - 1))%Z
    with 1%Z by (unfold fexp, emin; lia).
  simpl.
  change (Zdigits2 (Z.pos m)) with (Z.pos (digits2_pos m)).
  replace (e - 1 + 1)%Z with e by lia.
  replace (fexp 53 1024 (Z.pos (digits2_pos m) + e) - e)%Z
    with 0%Z by (unfold fexp, emin; lia).
  simpl. change (1024 - 53)%Z with 971%Z. by rewrite (proj2 (Z.leb_le e 971) He).
Qed.

Lemma SFdiv_one (x : spec_float) :
  SpecFloat.valid_binary prec emax x = true ->
  SFdiv prec emax x (Prim2SF 1) = x.
Proof.
  change (Prim2SF 1) with (S754_finite false 4503599627370496 (-52)).
  destruct x as [s|s| |s m e]; simpl; intros Hv.
  - by destruct s.
  - by destruct s.
  - done.
  - unfold bounded, canonical_mantissa in Hv.
    apply andb_true_iff in Hv as [Hc He].
    apply Z.eqb_eq in Hc. apply Z.leb_le in He.
    change prec with 53%Z in *. change emax with 1024%Z in *.
    rewrite xorb_false_r.
    destruct (decide (e = -1074)%Z) as [-> | Hne].
    + rewrite SFdiv_core_one_subnormal by (unfold fexp, emin in Hc; lia).
      by apply binary_round_aux_canonical.
    + rewrite SFdiv_core_one_normal by (unfold fexp, emin in Hc; lia).
      apply binary_round_aux_double; unfold fexp, emin in Hc; lia.
Qed.

Lemma float64_div_one x : PrimFloat.div x 1 = x.
Proof.
  apply Prim2SF_inj. rewrite FloatAxioms.div_spec. apply SFdiv_one, Prim2SF_valid.
Qed.

(** Adding a value to the zero changes nothing but the sign of a zero. *)
Lemma Prim2SF_add_zero x :
  Prim2SF (PrimFloat.add 0 x)
  = match Prim2SF x with
    | S754_zero _ => S754_zero false
    | y => y
    end.
Proof.
  rewrite FloatAxioms.add_spec.
  change (Prim2SF 0) with (S754_zero false).
  by destruct (Prim2SF x) as [[]|[]| |[] m e].
Qed.

Lemma same_number_Prim2SF a x :
  Prim2SF a = match Prim2SF x with
              | S754_zero _ => S754_zero false
              | y => y
              end ->
  same_number a x.
Proof.
  intros Ha. unfold same_number.
  rewrite FloatAxioms.eqb_spec, !is_nan_Prim2SF, Ha.
  destruct (Prim2SF x) as [[]|[]| |[] m e] eqn:Hx; auto; left;
    unfold SFeqb, SFcompare;
    by rewrite ?Z.compare_refl, ?Pos.compare_cont_refl.
Qed.

Lemma same_number_add_zero x : same_number (PrimFloat.add 0 x) x.
Proof. apply same_number_Prim2SF, Prim2SF_add_zero. Qed.

Lemma same_number_add_zero_twice x :
  same_number (PrimFloat.add 0 (PrimFloat.add 0 x)) x.
Proof.
  apply same_number_Prim2SF. rewrite !Prim2SF_add_zero.
  by destruct (Prim2SF x).
Qed.

(** The sum along axis 0 of a single token vector. *)
Lemma add_reduce_rows_single (v : list float) :
  Forall2 same_number (add_reduce_rows (length v) [v]) v.
Proof.
  destruct v as [|x [|y v]].
  - constructor.
  - constructor; [|constructor].
    change (same_number (PrimFloat.add 0 (PrimFloat.add 0 x)) x).
    apply same_number_add_zero_twice.
  - change (add_reduce_rows (length (x :: y :: v)) [x :: y :: v])
      with (zip_with add (replicate (length (x :: y :: v)) zero) (x :: y :: v)).
    rewrite zip_with_replicate_zero.
    generalize (x :: y :: v). intros l.
    induction l as [|z l IH]; constructor; [apply same_number_add_zero | done].
Qed.

End Float64Arithmetic.

(** C2: for every non-empty sequence of binary64 token vectors of one
    dimension [D], [max_pooling] returns a vector of dimension [D] whose
    element [i] is the maximum of the elements [i] of all token vectors:
    it is element [i] of one of the token vectors and no token vector has
    a larger element [i]; when an element [i] is a NaN, which is not
    comparable, the maximum is a NaN.  The maximum is taken element by
    element: the token vector it comes from can differ with [i]. *)
Theorem max_pooling_columnwise_maximum (rows : list (list float)) D :
  rows <> [] -> uniform D rows ->
  exists v, max_pooling rows = Ok (Vector v) /\ length v = D /\
    forall i, i < D ->
      if existsb PrimFloat.is_nan (column i rows)
      then PrimFloat.is_nan (nth i v zero) = true
      else (exists r, In r rows /\ nth i v zero = nth i r zero) /\
           (forall r, In r rows ->
              PrimFloat.leb (nth i r zero) (nth i v zero) = true).
Proof.
  destruct rows as [|r rs]; [congruence|]. intros _ Hu.
  eexists. split; [by apply (max_pooling_uniform r rs D)|].
  split; [by apply length_max_rows|].
  inversion Hu as [|?? Hr Hrs]; subst. intros i Hi.
  rewrite (nth_fold_zip_with maximum rs r (length r)) by done.
  change (existsb PrimFloat.is_nan (column i (r :: rs)))
    with (PrimFloat.is_nan (nth i r zero) || existsb PrimFloat.is_nan (column i rs)).
  destruct (PrimFloat.is_nan (nth i r zero) || existsb PrimFloat.is_nan (column i rs))
    eqn:Hnan.
  - by rewrite <- Hnan, <- is_nan_maximum_of.
  - apply orb_false_iff in Hnan as [Hhead Hcol].
    destruct (maximum_of_upper (column i rs) (nth i r zero) Hhead Hcol) as [Hin Hall].
    unfold maximum_of in Hin, Hall. split.
    + apply list_elem_of_In in Hin.
      change (nth i r zero :: column i rs) with (column i (r :: rs)) in Hin.
      unfold column in Hin. apply in_map_iff in Hin as (r' & Heq & Hin').
      by exists r'.
    + intros r' Hrow. rewrite Forall_forall in Hall. apply Hall.
      change (nth i r zero :: column i rs) with (column i (r :: rs)).
      unfold column. apply in_map_iff. by exists r'.
Qed.

(** C6: on a sequence of one binary64 vector [v], [max_pooling] returns
    [v], [average_pooling] returns entry by entry the same numbers as
    [v], computed as [(0 + x) / 1], and the two halves of the output of
    [concatenate_pooling] are these two outputs. *)
Theorem single_vector_pooling (v : list float) :
  (exists w, average_pooling [v] = Ok (Vector w) /\ Forall2 same_number w v) /\
  max_pooling [v] = Ok (Vector v) /\
  exists w, concatenate_pooling [v] = Ok (Vector w) /\
    Forall2 same_number (take (length v) w) v /\ drop (length v) w = v.
Proof.
  assert (Ha : average_pooling [v]
               = Ok (Vector (add_reduce_rows (length v) [v]))).
  { rewrite (average_pooling_uniform [v] (length v)) by (done || by constructor).
    do 2 f_equal. change (of_count (length [v])) with 1%float.
    rewrite <- (map_id (add_reduce_rows (length v) [v])) at 2.
    apply map_ext. intros x. apply float64_div_one. }
  assert (Hm : max_pooling [v] = Ok (Vector v)) by done.
  pose proof (add_reduce_rows_single v) as Hsame.
  split_and!.
  - by eexists.
  - done.
  - eexists. unfold concatenate_pooling. rewrite Ha, Hm. simpl. split; [done|].
    assert (Hlen : length (add_reduce_rows (length v) [v]) = length v)
      by (apply length_add_reduce_rows; by constructor).
    rewrite <- Hlen at 1 3.
    by rewrite take_app_length, drop_app_length.
Qed.

(** ** Pooling of binary64 token vectors *)

Section Float64.
Open Scope float_scope.

(** The example of the specification. *)
Example pooling_example :
  average_pooling [[1; 2]; [3; 4]; [5; 6]] = Ok (Vector [3; 4]) /\
  max_pooling [[1; 2]; [3; 4]; [5; 6]] = Ok (Vector [5; 6]) /\
  concatenate_pooling [[1; 2]; [3; 4]; [5; 6]] = Ok (Vector [3; 4; 5; 6]).
Proof. by vm_compute. Qed.

(** The maximum is taken entry by entry: the result need not be one of
    the token vectors. *)
Example max_pooling_elementwise :
  max_pooling [[1; 5]; [3; 2]] = Ok (Vector [3; 5]).
Proof. by vm_compute. Qed.

(** A NaN entry is the maximum of its column, wherever it stands. *)
Example max_pooling_nan :
  max_pooling [[1; nan]; [3; 2]] = Ok (Vector [3; nan]) /\
  max_pooling [[1; 2]; [3; nan]] = Ok (Vector [3; nan]).
Proof. by vm_compute. Qed.

(** Token vectors of different dimensions have no array. *)
Example pooling_ragged :
  average_pooling [[1; 2]; [3]] = Raise ValueError /\
  max_pooling [[1; 2]; [3]] = Raise ValueError /\
  concatenate_pooling [[1; 2]; [3]] = Raise ValueError.
Proof. by vm_compute. Qed.

(** A column that is all of the array is added pairwise: of nine tokens,
    the ones are added to each other before they are added to [1e16].
    In an array of two columns they are added to it one by one, and each
    of them is rounded away. *)
Example average_pooling_pairwise :
  average_pooling ([1e16] :: replicate 8 [1]) = Ok (Vector [1111111111111112]) /\
  average_pooling ([1e16; 0] :: replicate 8 [1; 0])
  = Ok (Vector [1e16 / 9; 0]).
Proof. by vm_compute. Qed.

Lemma average_pooling_columnwise_mean_witness :
  (exists v, average_pooling [[1; 2]; [3; 4]; [5; 6]] = Ok (Vector v) /\
     length v = 2%nat /\
     forall i, (i < 2)%nat ->
       exists k s,
         adds_up PrimFloat.add
           (replicate k 0 ++ column i [[1; 2]; [3; 4]; [5; 6]]) s /\
         nth i v 0 = s / 3) /\
  (let rows := [[Qc_of_Z 1; Qc_of_Z 2]; [Qc_of_Z 3; Qc_of_Z 4]; [Qc_of_Z 5; Qc_of_Z 0]] in
   exists v, average_pooling (dtype := exact) rows = Ok (Vector v) /\
     length v = 2%nat /\
     forall i, (i < 2)%nat ->
       nth i v 0%Qc = arithmetic_mean (column (dtype := exact) i rows)).
Proof.
  split.
  - apply (proj1 average_pooling_columnwise_mean
             [[1; 2]; [3; 4]; [5; 6]] 2%nat); [done | by repeat constructor].
  - apply (proj2 average_pooling_columnwise_mean _ 2%nat);
      [done | by repeat constructor].
Defined.

(** C1 does not hold for binary64 token vectors: every addition rounds,
    and the element returned need not be the arithmetic mean.  In the
    column [1e16, 1, -1e16], whose mean is [1/3], the [1] is rounded away
    when it is added to [1e16], and [average_pooling] returns [0]. *)
Lemma average_pooling_is_not_the_mean :
  let column := [1e16; 1; -1e16] in
  average_pooling (map (fun x => [x]) column) = Ok (Vector [0]) /\
  exists values,
    mapM Qc_of_float column = Some values /\
    arithmetic_mean values = Q2Qc (1 # 3)%Q /\
    Qc_of_float 0 = Some 0%Qc /\ 0%Qc <> Q2Qc (1 # 3)%Q.
Proof.
  split; [reflexivity|].
  eexists. split_and!.
  - vm_compute. reflexivity.
  - apply Qc_is_canon. by vm_compute.
  - reflexivity.
  - intros Heq. apply (f_equal this) in Heq. vm_compute in Heq. discriminate Heq.
Qed.

Lemma max_pooling_columnwise_maximum_witness :
  exists v, max_pooling [[1; 5]; [3; 2]; [0; 4]] = Ok (Vector v) /\
    length v = 2%nat /\
    forall i, (i < 2)%nat ->
      if existsb PrimFloat.is_nan (column i [[1; 5]; [3; 2]; [0; 4]])
      then PrimFloat.is_nan (nth i v zero) = true
      else (exists r, In r [[1; 5]; [3; 2]; [0; 4]] /\ nth i v zero = nth i r zero) /\
           (forall r, In r [[1; 5]; [3; 2]; [0; 4]] ->
              PrimFloat.leb (nth i r zero) (nth i v zero) = true).
Proof.
  apply (max_pooling_columnwise_maximum [[1; 5]; [3; 2]; [0; 4]] 2);
    [done | by repeat constructor].
Defined.

Lemma concatenate_pooling_average_then_max_witness :
  exists avg mx v,
    average_pooling [[1; 2]; [3; 4]; [5; 6]] = Ok (Vector avg) /\
    max_pooling [[1; 2]; [3; 4]; [5; 6]] = Ok (Vector mx) /\
    concatenate_pooling [[1; 2]; [3; 4]; [5; 6]] = Ok (Vector v) /\
    length v = (2 * 2)%nat /\ take 2 v = avg /\ drop 2 v = mx.
Proof.
  apply (concatenate_pooling_average_then_max [[1; 2]; [3; 4]; [5; 6]] 2);
    [done | by repeat constructor].
Defined.

(** One token vector is its own mean and its own maximum. *)
Example single_vector_pooling_example :
  average_pooling [[1.5; -2; 0.25]] = Ok (Vector [1.5; -2; 0.25]) /\
  max_pooling [[1.5; -2; 0.25]] = Ok (Vector [1.5; -2; 0.25]) /\
  concatenate_pooling [[1.5; -2; 0.25]]
  = Ok (Vector [1.5; -2; 0.25; 1.5; -2; 0.25]).
Proof. by vm_compute. Qed.

(** On the empty sequence [np.array] builds the array of shape [(0,)]:
    its mean along axis 0 is [0 / 0], and its maximum does not exist. *)
Lemma average_pooling_empty : average_pooling [] = Ok (Scalar nan).
Proof. reflexivity. Qed.

Lemma max_pooling_empty : max_pooling (F := float) [] = Raise ValueError.
Proof. reflexivity. Qed.

(** C4 does not hold: [average_pooling] of the empty sequence does not
    fail, it returns NaN. *)
Lemma average_pooling_empty_returns :
  average_pooling [] = Ok (Scalar nan) /\
  ~ raises (average_pooling (F := float) []).
Proof. split; [reflexivity|]. intros [e He]. discriminate He. Qed.

(** C4, as the code has it: on the empty sequence [max_pooling] and
    [concatenate_pooling] fail with the [ValueError] of numpy, the code
    having no exception of its own for it, and [average_pooling] returns
    without failing the scalar NaN, which is neither a vector nor
    zero. *)
Theorem pooling_empty :
  max_pooling (F := float) [] = Raise ValueError /\
  concatenate_pooling (F := float) [] = Raise ValueError /\
  exists x, average_pooling [] = Ok (Scalar x) /\ PrimFloat.is_nan x = true.
Proof. split_and!; [reflexivity..|]. by exists nan. Qed.

(** C5 does not hold: binary64 addition rounds, so the sum of a column
    depends on the order of the tokens, and the mean with it. *)
Lemma average_pooling_depends_on_order :
  let rows := [[1e16]; [1]; [-1e16]] in
  let rows' := [[1e16]; [-1e16]; [1]] in
  rows <> [] /\ uniform 1 rows /\ rows ≡ₚ rows' /\
  average_pooling rows = Ok (Vector [0]) /\
  average_pooling rows' = Ok (Vector [1 / 3]) /\
  average_pooling rows' <> average_pooling rows.
Proof.
  split_and!; [done | by repeat constructor | apply perm_skip, perm_swap
              | reflexivity | reflexivity | ].
  intros Heq. vm_compute in Heq. discriminate Heq.
Qed.

Lemma pooling_permutation_witness :
  (exists v v',
      max_pooling [[1; 5]; [3; 2]; [0; 4]] = Ok (Vector v) /\
      max_pooling [[3; 2]; [1; 5]; [0; 4]] = Ok (Vector v') /\
      length v = 2%nat /\ length v' = 2%nat /\
      forall i, (i < 2)%nat -> same_number (nth i v zero) (nth i v' zero)) /\
  (let rows := [[Qc_of_Z 1; Qc_of_Z 2]; [Qc_of_Z 3; Qc_of_Z 4]; [Qc_of_Z 5; Qc_of_Z 0]] in
   let rows' := [[Qc_of_Z 3; Qc_of_Z 4]; [Qc_of_Z 1; Qc_of_Z 2]; [Qc_of_Z 5; Qc_of_Z 0]] in
   @average_pooling Qc exact rows' = @average_pooling Qc exact rows /\
   @max_pooling Qc exact rows' = @max_pooling Qc exact rows).
Proof.
  split.
  - apply (proj1 pooling_permutation [[1; 5]; [3; 2]; [0; 4]]
             [[3; 2]; [1; 5]; [0; 4]] 2%nat);
      [done | by repeat constructor | apply perm_swap].
  - apply (proj2 pooling_permutation Qc exact _ _ 2%nat).
    + apply Qcplus_assoc.
    + apply Qcplus_comm.
    + apply Qc_maximum_assoc.
    + apply Qc_maximum_comm.
    + done.
    + by repeat constructor.
    + apply perm_swap.
Defined.

End Float64.

(** ** The batch driver *)

Section GetEmbeddings.
Context {V : Type} (llm_embed : list string -> string -> result V).
Implicit Types (texts calls : list string) (embeddings : list V).

Lemma provider_answers_cons calls text texts :
  Llm.provider_answers llm_embed calls (text :: texts) ->
  (exists v, llm_embed calls text = Ok v) /\
  Llm.provider_answers llm_embed (calls ++ [text]) texts.
Proof.
  intros Hp. split.
  - destruct (Hp 0 text eq_refl) as [v Hv]. exists v.
    by rewrite take_0, app_nil_r in Hv.
  - intros i t Hi. destruct (Hp (S i) t Hi) as [v Hv]. exists v.
    by rewrite <- app_assoc.
Qed.

(** The loop appends to [embeddings] the provider's vector for each text,
    in the order of the texts. *)
Lemma for_text_answers texts embeddings calls :
  Llm.provider_answers llm_embed calls texts ->
  exists out,
    Llm.for_text llm_embed texts embeddings calls
    = (Ok (embeddings ++ out), calls ++ texts) /\
    length out = length texts /\
    forall i text, texts !! i = Some text ->
      exists v, out !! i = Some v /\
        llm_embed (calls ++ take i texts) text = Ok v.
Proof.
  revert embeddings calls.
  induction texts as [|t texts IH]; intros embeddings calls Hp.
  - exists []. simpl. unfold Llm.ret. by rewrite !app_nil_r.
  - apply provider_answers_cons in Hp as [[v0 Hv0] Hp].
    destruct (IH (embeddings ++ [v0]) _ Hp) as (out & Hrun & Hlen & Hout).
    exists (v0 :: out). split_and!.
    + simpl. unfold Llm.bind, Llm.embed. rewrite Hv0, Hrun.
      by rewrite <- !app_assoc.
    + simpl. by rewrite Hlen.
    + intros [|i] text Hi; simpl in *.
      * injection Hi as <-. exists v0. by rewrite app_nil_r.
      * destruct (Hout i text Hi) as (v & Hv & Hcall). exists v.
        split; [done|]. by rewrite <- app_assoc in Hcall.
Qed.

(** C7: when the provider returns a vector for each text,
    [get_embeddings] returns a list as long as [texts] whose element [i]
    is the vector the provider returned for text [i]; the provider was
    called once for each text, in order. *)
Theorem get_embeddings_in_order texts calls :
  Llm.provider_answers llm_embed calls texts ->
  exists embeddings,
    Llm.get_embeddings llm_embed texts calls = (Ok embeddings, calls ++ texts) /\
    length embeddings = length texts /\
    forall i text, texts !! i = Some text ->
      exists v, embeddings !! i = Some v /\
        llm_embed (calls ++ take i texts) text = Ok v.
Proof.
  intros Hp. unfold Llm.get_embeddings, Llm.tqdm.
  destruct (for_text_answers texts [] calls Hp) as (out & Hrun & Hlen & Hout).
  by exists out.
Qed.

(** C8: on the empty list of texts [get_embeddings] returns the empty
    list, and the calls made to the provider are those made before. *)
Theorem get_embeddings_empty calls :
  Llm.get_embeddings llm_embed [] calls = (Ok [], calls).
Proof. reflexivity. Qed.

(** A failure of the provider ends the batch: the texts after it are not
    embedded. *)
Lemma for_text_raises texts embeddings calls text e :
  llm_embed calls text = Raise e ->
  Llm.for_text llm_embed (text :: texts) embeddings calls
  = (Raise e, calls ++ [text]).
Proof. intros He. simpl. unfold Llm.bind, Llm.embed. by rewrite He. Qed.

End GetEmbeddings.

Example get_embeddings_stub :
  Llm.get_embeddings Llm.stub_provider ["a"; "b"; "c"] []
  = (Ok [[1; 0; 0]; [0; 1; 0]; [0; 0; 1]]%Z, ["a"; "b"; "c"]).
Proof. reflexivity. Qed.

Example get_embeddings_stub_fails :
  Llm.get_embeddings Llm.stub_provider ["a"; "x"; "c"] []
  = (Raise (ProviderError "x"), ["a"; "x"]).
Proof. reflexivity. Qed.

Lemma get_embeddings_in_order_witness :
  exists embeddings,
    Llm.get_embeddings Llm.stub_provider ["a"; "b"; "c"] []
    = (Ok embeddings, [] ++ ["a"; "b"; "c"]) /\
    length embeddings = length ["a"; "b"; "c"] /\
    forall i text, ["a"; "b"; "c"] !! i = Some text ->
      exists v, embeddings !! i = Some v /\
        Llm.stub_provider ([] ++ take i ["a"; "b"; "c"]) text = Ok v.
Proof.
  apply (get_embeddings_in_order Llm.stub_provider ["a"; "b"; "c"] []).
  intros [|[|[|i]]] text Hi; simpl in Hi; try discriminate Hi;
    injection Hi as <-; eexists; reflexivity.
Defined.

(** ** The configuration lookups *)

Section Lookups.
Implicit Types (fs : gmap string file) (m : gmap string json).

Lemma read_json_object fs path data :
  fs !! path = Some (JsonText data) -> Utils.read_json fs path = Ok data.
Proof. intros Hf. unfold Utils.read_json. by rewrite Hf. Qed.

(** A key that is bound is looked up. *)
Lemma get_value_by_key_json_found fs path key m v :
  fs !! path = Some (JsonText (JObj m)) -> m !! key = Some v ->
  Utils.get_value_by_key_json fs path key = Ok v.
Proof.
  intros Hf Hk. unfold Utils.get_value_by_key_json.
  rewrite (read_json_object fs path _ Hf). simpl. by rewrite Hk.
Qed.

Lemma get_value_by_key_json_missing fs path key m :
  fs !! path = Some (JsonText (JObj m)) -> m !! key = None ->
  Utils.get_value_by_key_json fs path key = Ok (JStr "Key not found").
Proof.
  intros Hf Hk. unfold Utils.get_value_by_key_json.
  rewrite (read_json_object fs path _ Hf). simpl. by rewrite Hk.
Qed.

Lemma get_prompt_missing fs path key m :
  fs !! path = Some (JsonText (JObj m)) -> m !! key = None ->
  Utils.get_prompt fs key path
  = Raise (KeyError ("The key '" +:+ key +:+ "' does not exist in the JSON data.")).
Proof.
  intros Hf Hk. unfold Utils.get_prompt.
  rewrite (read_json_object fs path _ Hf). simpl.
  rewrite bool_decide_eq_false_2; [done|].
  rewrite Hk. by intros [? ?].
Qed.

(** C9: when the key is absent from the mapping read from the file, each
    lookup hands its caller a not-found signal at once:
    [get_value_by_key_json] returns the message ["Key not found"] and
    [get_prompt] raises [KeyError] naming the key. *)
Theorem lookup_missing_key fs path key m :
  fs !! path = Some (JsonText (JObj m)) -> m !! key = None ->
  Utils.get_value_by_key_json fs path key = Ok (JStr "Key not found") /\
  Utils.get_prompt fs key path
  = Raise (KeyError ("The key '" +:+ key +:+ "' does not exist in the JSON data.")).
Proof.
  intros Hf Hk. split.
  - by apply (get_value_by_key_json_missing fs path key m).
  - by apply (get_prompt_missing fs path key m).
Qed.

(** C10: [get_value_by_key_json] returns the same value for a mapping
    without the key and for a mapping that binds the key to the string
    ["Key not found"]. *)
Theorem missing_key_indistinguishable fs fs' path path' key m m' :
  fs !! path = Some (JsonText (JObj m)) -> m !! key = None ->
  fs' !! path' = Some (JsonText (JObj m')) ->
  m' !! key = Some (JStr "Key not found") ->
  Utils.get_value_by_key_json fs path key
  = Utils.get_value_by_key_json fs' path' key /\
  Utils.get_value_by_key_json fs path key = Ok (JStr "Key not found").
Proof.
  intros Hf Hk Hf' Hk'.
  rewrite (get_value_by_key_json_missing fs path key m Hf Hk).
  by rewrite (get_value_by_key_json_found fs' path' key m' _ Hf' Hk').
Qed.

End Lookups.

Example get_prompt_found :
  Utils.get_prompt Utils.prompts "summary" Utils.default_json_path
  = Ok (JStr "You summarise.", JStr "Summarise this.").
Proof. by vm_compute. Qed.

Example get_value_by_key_json_no_file :
  Utils.get_value_by_key_json Utils.context_lengths "configs/missing.json" "org/model-a"
  = Raise FileNotFoundError.
Proof. by vm_compute. Qed.

Lemma lookup_missing_key_witness :
  Utils.get_value_by_key_json Utils.context_lengths
    "configs/context_lenght.json" "org/model-b"
  = Ok (JStr "Key not found") /\
  Utils.get_prompt Utils.context_lengths "org/model-b" "configs/context_lenght.json"
  = Raise (KeyError ("The key '" +:+ "org/model-b" +:+ "' does not exist in the JSON data.")).
Proof.
  apply (lookup_missing_key Utils.context_lengths "configs/context_lenght.json"
           "org/model-b" {[ "org/model-a" := JInt 512 ]}).
  - reflexivity.
  - reflexivity.
Defined.

Lemma missing_key_indistinguishable_witness :
  Utils.get_value_by_key_json Utils.context_lengths
    "configs/context_lenght.json" "org/model-b"
  = Utils.get_value_by_key_json Utils.context_lengths'
      "configs/context_lenght.json" "org/model-b" /\
  Utils.get_value_by_key_json Utils.context_lengths
    "configs/context_lenght.json" "org/model-b"
  = Ok (JStr "Key not found").
Proof.
  apply (missing_key_indistinguishable Utils.context_lengths Utils.context_lengths'
           "configs/context_lenght.json" "configs/context_lenght.json" "org/model-b"
           {[ "org/model-a" := JInt 512 ]}
           {[ "org/model-b" := JStr "Key not found" ]});
    reflexivity.
Defined.

(** ** Strings and paths *)

Section Strings.
Implicit Types (s p pre new old d name : string) (a c : Ascii.ascii).

Lemma str_append_cons a s1 s2 : String a s1 +:+ s2 = String a (s1 +:+ s2).
Proof. reflexivity. Qed.

Lemma str_append_nil_l s : "" +:+ s = s.
Proof. reflexivity. Qed.

Ltac str_simpl := rewrite ?str_append_cons, ?str_append_nil_l; simpl.

Lemma str_append_nil_r s : s +:+ "" = s.
Proof. induction s as [|a s IH]; str_simpl; [done | by rewrite IH]. Qed.

Lemma str_append_assoc s1 s2 s3 : (s1 +:+ s2) +:+ s3 = s1 +:+ (s2 +:+ s3).
Proof. induction s1 as [|a s1 IH]; str_simpl; [done | by rewrite IH]. Qed.

Lemma str_length_append s1 s2 :
  String.length (s1 +:+ s2) = String.length s1 + String.length s2.
Proof. induction s1 as [|a s1 IH]; str_simpl; [done | by rewrite IH]. Qed.

Lemma slice_from_append pre s i :
  i <= String.length pre ->
  PyStr.slice_from i (pre +:+ s) = PyStr.slice_from i pre +:+ s.
Proof.
  revert i. induction pre as [|a pre IH]; intros [|i]; str_simpl; try done; try lia.
  intros ?. apply IH. lia.
Qed.

Lemma slice_from_length s : PyStr.slice_from (String.length s) s = "".
Proof. induction s as [|a s IH]; simpl; done. Qed.

Lemma contains_append c s1 s2 :
  PyStr.contains c (s1 +:+ s2) = PyStr.contains c s1 || PyStr.contains c s2.
Proof.
  induction s1 as [|a s1 IH]; str_simpl; [done|]. by rewrite IH, orb_assoc.
Qed.

Lemma endswith_nil suffix :
  PyStr.endswith "" suffix = String.eqb "" suffix || false.
Proof. reflexivity. Qed.

Lemma endswith_cons a s suffix :
  PyStr.endswith (String a s) suffix
  = String.eqb (String a s) suffix || PyStr.endswith s suffix.
Proof. reflexivity. Qed.

(** [endswith] finds exactly the strings that end with the suffix. *)
Lemma endswith_spec s suffix :
  PyStr.endswith s suffix = true <-> exists pre, s = pre +:+ suffix.
Proof.
  induction s as [|a s IH]; rewrite ?endswith_nil, ?endswith_cons.
  - rewrite orb_false_r, String.eqb_eq. split.
    + intros <-. by exists "".
    + intros [[|b pre] Hpre]; [done | discriminate].
  - rewrite orb_true_iff, String.eqb_eq, IH. split.
    + intros [<- | [pre ->]]; [by exists "" | by exists (String a pre)].
    + intros [[|b pre] Hpre]; [by left|].
      rewrite str_append_cons in Hpre.
      injection Hpre as <- ->. right. by exists pre.
Qed.

Lemma endswith_append pre suffix : PyStr.endswith (pre +:+ suffix) suffix = true.
Proof. apply endswith_spec. by exists pre. Qed.

Lemma endswith_trans s p suffix :
  PyStr.endswith s p = true -> PyStr.endswith p suffix = true ->
  PyStr.endswith s suffix = true.
Proof.
  rewrite !endswith_spec. intros [pre ->] [pre' ->].
  exists (pre +:+ pre'). by rewrite str_append_assoc.
Qed.

(** The slice that [basename] takes is the last component. *)
Lemma slice_rfind_from s pre (last : Z) :
  (-1 <= last < Z.of_nat (String.length pre))%Z ->
  PyStr.slice_from
    (Z.to_nat (PyStr.rfind_from PosixPath.sep s (String.length pre) last + 1))
    (pre +:+ s)
  = if PyStr.contains PosixPath.sep s then PosixPath.last_component s
    else PyStr.slice_from (Z.to_nat (last + 1)) pre +:+ s.
Proof.
  revert pre last. induction s as [|a s IH]; intros pre last Hlast; simpl.
  - rewrite !str_append_nil_r. done.
  - replace (pre +:+ String a s) with ((pre +:+ String a "") +:+ s)
      by by rewrite str_append_assoc.
    replace (S (String.length pre)) with (String.length (pre +:+ String a ""))
      by (rewrite str_length_append; simpl; lia).
    rewrite IH by (rewrite str_length_append; simpl; destruct (Ascii.eqb a _); lia).
    destruct (PyStr.contains PosixPath.sep s) eqn:Hs.
    { by rewrite orb_true_r. }
    rewrite orb_false_r. destruct (Ascii.eqb a PosixPath.sep) eqn:Ha.
    + replace (Z.to_nat (Z.of_nat (String.length pre) + 1))
        with (String.length (pre +:+ String a ""))
        by (rewrite str_length_append; simpl; lia).
      by rewrite slice_from_length.
    + rewrite slice_from_append by lia. by rewrite str_append_assoc.
Qed.

Lemma last_component_no_sep p :
  PyStr.contains PosixPath.sep p = false -> PosixPath.last_component p = p.
Proof.
  destruct p as [|a p]; simpl; [done|].
  intros [Ha ->]%orb_false_iff. by rewrite Ha.
Qed.

Lemma basename_last_component p :
  PosixPath.basename p = PosixPath.last_component p.
Proof.
  unfold PosixPath.basename, PyStr.rfind.
  pose proof (slice_rfind_from p "" (-1)) as H.
  rewrite str_append_nil_l in H. change (String.length "") with 0 in H.
  rewrite H by (simpl; lia).
  destruct (PyStr.contains PosixPath.sep p) eqn:Hp; [done|].
  by rewrite last_component_no_sep.
Qed.

Lemma last_component_contains p :
  PyStr.contains PosixPath.sep (PosixPath.last_component p) = false.
Proof.
  induction p as [|a p IH]; simpl; [done|].
  destruct (PyStr.contains PosixPath.sep p) eqn:Hp; [done|].
  destruct (Ascii.eqb a PosixPath.sep) eqn:Ha; [done|].
  simpl. by rewrite Ha, Hp.
Qed.

Lemma last_component_split p :
  exists head, p = head +:+ PosixPath.last_component p /\
    (head = "" \/ PyStr.endswith head "/" = true).
Proof.
  induction p as [|a p (head & Hp & Hhead)]; simpl.
  - exists "". auto.
  - destruct (PyStr.contains PosixPath.sep p) eqn:Hc.
    + exists (String a head). split; [by rewrite str_append_cons, <- Hp|]. right.
      destruct Hhead as [-> | Hhead].
      * rewrite str_append_nil_l in Hp. rewrite Hp in Hc.
        by rewrite last_component_contains in Hc.
      * rewrite endswith_cons, Hhead. by rewrite orb_true_r.
    + destruct (Ascii.eqb a PosixPath.sep) eqn:Ha.
      * exists (String a ""). split; [done|]. right.
        apply Ascii.eqb_eq in Ha as ->. done.
      * exists "". auto.
Qed.

Lemma last_component_append_sep pre name :
  PyStr.contains PosixPath.sep name = false ->
  PosixPath.last_component ((pre +:+ "/") +:+ name) = name.
Proof.
  intros Hname. induction pre as [|a pre IH].
  - change (("" +:+ "/") +:+ name) with (String PosixPath.sep name).
    simpl. by rewrite Hname.
  - rewrite !str_append_cons. simpl.
    rewrite !contains_append.
    change (PyStr.contains PosixPath.sep "/") with true.
    by rewrite orb_true_r.
Qed.

Lemma prefix_cons a s1 c s2 :
  String.prefix (String a s1) (String c s2)
  = if Ascii.ascii_dec a c then String.prefix s1 s2 else false.
Proof. reflexivity. Qed.

Lemma startswith_sep_contains name :
  PyStr.startswith name "/" = true -> PyStr.contains PosixPath.sep name = true.
Proof.
  unfold PyStr.startswith. destruct name as [|a name]; [done|].
  change "/" with (String PosixPath.sep ""). rewrite prefix_cons.
  destruct (Ascii.ascii_dec PosixPath.sep a) as [<- | ?]; [|done].
  intros _. simpl. by rewrite ?Ascii.eqb_refl.
Qed.

(** The last component of [os.path.join(d, name)] is [name]. *)
Lemma last_component_join d name :
  PyStr.contains PosixPath.sep name = false ->
  PosixPath.last_component (PosixPath.join d name) = name.
Proof.
  intros Hname. unfold PosixPath.join.
  destruct (PyStr.startswith name "/") eqn:Hstart.
  { apply startswith_sep_contains in Hstart. congruence. }
  destruct (String.eqb d "") eqn:Hd; simpl.
  { apply String.eqb_eq in Hd as ->. rewrite str_append_nil_l.
    by apply last_component_no_sep. }
  destruct (PyStr.endswith d "/") eqn:Hend.
  - apply endswith_spec in Hend as [pre ->].
    by apply last_component_append_sep.
  - rewrite <- str_append_assoc. by apply last_component_append_sep.
Qed.

End Strings.

Section PathsAndReplace.
Implicit Types (s p d name old new : string) (a b c : Ascii.ascii).

(** X1: every path is a head that is empty or ends with [/], followed by
    its last element, and the last element holds no [/]. *)
Theorem get_last_element_from_path_split p :
  exists head,
    p = head +:+ Utils.get_last_element_from_path p /\
    (head = "" \/ PyStr.endswith head "/" = true) /\
    PyStr.contains PosixPath.sep (Utils.get_last_element_from_path p) = false.
Proof.
  unfold Utils.get_last_element_from_path. rewrite basename_last_component.
  destruct (last_component_split p) as (head & Hp & Hhead).
  exists head. split_and!; [done..|]. apply last_component_contains.
Qed.

(** X2: the last element of [os.path.join(d, name)] is [name], for every
    [name] without [/]; so a path that ends with [/] has the empty last
    element. *)
Theorem get_last_element_from_path_join d name :
  PyStr.contains PosixPath.sep name = false ->
  Utils.get_last_element_from_path (PosixPath.join d name) = name.
Proof.
  intros Hname. unfold Utils.get_last_element_from_path.
  rewrite basename_last_component. by apply last_component_join.
Qed.

Lemma get_last_element_from_path_join_witness :
  Utils.get_last_element_from_path (PosixPath.join "data/embeddings" "tokens.npy")
  = "tokens.npy".
Proof.
  apply (get_last_element_from_path_join "data/embeddings" "tokens.npy").
  reflexivity.
Defined.

Lemma replace_from_single a b s :
  PyStr.replace_from (String a "") (String b "") 0 s
  = PyStr.map_chars (fun c => if Ascii.eqb c a then b else c) s.
Proof.
  induction s as [|c s IH]; [done|].
  change (PyStr.replace_from (String a "") (String b "") 0 (String c s))
    with (if String.prefix (String a "") (String c s)
          then String b "" +:+ PyStr.replace_from (String a "") (String b "") 0 s
          else String c (PyStr.replace_from (String a "") (String b "") 0 s)).
  rewrite IH, prefix_cons. simpl PyStr.map_chars.
  destruct (Ascii.ascii_dec a c) as [-> | Hne].
  - rewrite Ascii.eqb_refl. by destruct s.
  - destruct (Ascii.eqb c a) eqn:Hca; [|done].
    apply Ascii.eqb_eq in Hca. congruence.
Qed.

Lemma length_map_chars (f : Ascii.ascii -> Ascii.ascii) s :
  String.length (PyStr.map_chars f s) = String.length s.
Proof. induction s as [|c s IH]; simpl; [done | by rewrite IH]. Qed.

Lemma contains_map_chars_swap a b s :
  a <> b ->
  PyStr.contains a (PyStr.map_chars (fun c => if Ascii.eqb c a then b else c) s)
  = false.
Proof.
  intros Hab. induction s as [|c s IH]; simpl; [done|]. rewrite IH, orb_false_r.
  destruct (Ascii.eqb c a) eqn:Hca; [|done].
  apply Ascii.eqb_neq. congruence.
Qed.

(** X3: with one character for [old_char] and one for [new_char],
    [replace_character] changes every [old_char] of the string into
    [new_char] and leaves the other characters where they are; the
    length is kept. *)
Theorem replace_character_pointwise s a b :
  Utils.replace_character s (String a "") (String b "")
  = PyStr.map_chars (fun c => if Ascii.eqb c a then b else c) s /\
  String.length (Utils.replace_character s (String a "") (String b ""))
  = String.length s.
Proof.
  unfold Utils.replace_character, PyStr.replace.
  rewrite replace_from_single. split; [done | apply length_map_chars].
Qed.

(** X4: after [replace_character] with two different characters the old
    one occurs nowhere in the result. *)
Theorem replace_character_removes s a b :
  a <> b ->
  PyStr.contains a (Utils.replace_character s (String a "") (String b "")) = false.
Proof.
  intros Hab. unfold Utils.replace_character, PyStr.replace.
  rewrite replace_from_single. by apply contains_map_chars_swap.
Qed.

Lemma replace_character_removes_witness :
  PyStr.contains PosixPath.sep
    (Utils.replace_character "org/model-a" (String PosixPath.sep "")
       (String (Ascii.ascii_of_nat 95) "")) = false.
Proof.
  apply (replace_character_removes "org/model-a" PosixPath.sep
           (Ascii.ascii_of_nat 95)).
  discriminate.
Defined.

(** X5: a non-empty [old_char] that is not a substring of the input
    leaves it unchanged. *)
Theorem replace_character_absent s old new :
  old <> "" -> Utils.is_substring old s = false ->
  Utils.replace_character s old new = s.
Proof.
  intros Hold. unfold Utils.replace_character, PyStr.replace.
  destruct old as [|a old]; [done|]. clear Hold.
  induction s as [|c s IH]; [done|].
  simpl Utils.is_substring. intros [Hpre Hs]%orb_false_iff.
  change (PyStr.replace_from (String a old) new 0 (String c s))
    with (if String.prefix (String a old) (String c s)
          then new +:+ PyStr.replace_from (String a old) new
                         (String.length (String a old) - 1) s
          else String c (PyStr.replace_from (String a old) new 0 s)).
  rewrite prefix_cons, Hpre. by rewrite IH.
Qed.

Lemma replace_character_absent_witness :
  Utils.replace_character "model.gguf" "/" "_" = "model.gguf".
Proof.
  apply (replace_character_absent "model.gguf" "/" "_"); [discriminate | reflexivity].
Defined.

(** X6: with the default characters, [replace_character] turns a path
    into a single file name: the result is its own last element. *)
Theorem replace_character_flattens p :
  Utils.get_last_element_from_path
    (Utils.replace_character p Utils.default_old_char Utils.default_new_char)
  = Utils.replace_character p Utils.default_old_char Utils.default_new_char.
Proof.
  unfold Utils.get_last_element_from_path. rewrite basename_last_component.
  apply last_component_no_sep.
  unfold Utils.replace_character, PyStr.replace, Utils.default_old_char,
    Utils.default_new_char.
  change "/" with (String PosixPath.sep "").
  change "_" with (String (Ascii.ascii_of_nat 95) "").
  rewrite replace_from_single. by apply contains_map_chars_swap.
Qed.

(** The example of the docstring. *)
Example replace_character_example :
  Utils.replace_character "/home/user/documents/file.txt" "/" "_"
  = "_home_user_documents_file.txt".
Proof. reflexivity. Qed.

Lemma length_replace_empty new s :
  String.length (PyStr.replace_empty new s)
  = String.length s + (String.length s + 1) * String.length new.
Proof.
  induction s as [|c s IH]; simpl; [lia|].
  rewrite str_length_append. simpl. rewrite IH. lia.
Qed.

(** X7: with an empty [old_char], [new_char] is put before every
    character and at the end: a string of [n] characters grows by
    [n + 1] copies of [new_char]. *)
Theorem replace_character_empty_old s new :
  String.length (Utils.replace_character s "" new)
  = String.length s + (String.length s + 1) * String.length new /\
  PyStr.startswith (Utils.replace_character s "" new) new = true /\
  PyStr.endswith (Utils.replace_character s "" new) new = true.
Proof.
  unfold Utils.replace_character, PyStr.replace.
  split; [apply length_replace_empty|].
  split.
  - unfold PyStr.startswith. apply String.prefix_correct.
    destruct s as [|c s]; simpl.
    + clear. induction new as [|a new IH]; simpl; [done|].
      by rewrite IH.
    + generalize (String c (PyStr.replace_empty new s)). intros rest.
      clear. induction new as [|a new IH]; [by destruct rest|].
      rewrite str_append_cons. simpl. by rewrite IH.
  - induction s as [|c s IH]; simpl.
    + apply endswith_spec. by exists "".
    + apply endswith_spec in IH as [pre Hpre]. apply endswith_spec.
      exists (new +:+ String c pre). rewrite Hpre at 1.
      by rewrite str_append_assoc.
Qed.

End PathsAndReplace.

(** ** Listing the files of a directory *)

Section Listing.
Context {A B : Type}.

(** A loop that appends [f x] for the items [x] that pass a test. *)
Lemma fold_left_append_if (test : A -> bool) (f : A -> B) (l : list A) (acc : list B) :
  fold_left (fun acc x => if test x then acc ++ [f x] else acc) l acc
  = acc ++ map f (List.filter test l).
Proof.
  revert acc. induction l as [|x l IH]; intros acc; simpl.
  - by rewrite app_nil_r.
  - rewrite IH. destruct (test x); simpl; [|done]. by rewrite <- app_assoc.
Qed.

End Listing.

Section Directories.
Variable listdir : string -> result (list string).
Variable isfile : string -> bool.
Variable walk : string -> list (string * list string * list string).

Lemma get_all_files_in_directory_listed directory filenames :
  listdir directory = Ok filenames ->
  Utils.get_all_files_in_directory listdir isfile directory
  = List.filter isfile (map (PosixPath.join directory) filenames).
Proof.
  intros Hl. unfold Utils.get_all_files_in_directory. rewrite Hl.
  assert (Hgen : forall names acc,
    fold_left
      (fun files filename =>
         let file_path := PosixPath.join directory filename in
         if isfile file_path then files ++ [file_path] else files)
      names acc
    = acc ++ List.filter isfile (map (PosixPath.join directory) names)).
  { intros names. induction names as [|x l IH]; intros acc; simpl.
    - by rewrite app_nil_r.
    - rewrite IH. destruct (isfile _); simpl; [|done]. by rewrite <- app_assoc. }
  by rewrite Hgen.
Qed.

(** X8: [get_all_files_in_directory] returns the empty list when the
    directory cannot be listed, and otherwise, in the order of the
    listing, paths that are regular files, each the directory joined with
    a listed name, which is the last element of the path. *)
Theorem get_all_files_in_directory_files directory :
  (forall e, listdir directory = Raise e ->
     Utils.get_all_files_in_directory listdir isfile directory = []) /\
  (forall filenames,
     listdir directory = Ok filenames ->
     Forall (fun name => PyStr.contains PosixPath.sep name = false) filenames ->
     Forall (fun file_path =>
               isfile file_path = true /\
               In (Utils.get_last_element_from_path file_path) filenames /\
               file_path = PosixPath.join directory
                             (Utils.get_last_element_from_path file_path))
       (Utils.get_all_files_in_directory listdir isfile directory)).
Proof.
  split.
  - intros e He. unfold Utils.get_all_files_in_directory. by rewrite He.
  - intros filenames Hl Hnames.
    rewrite (get_all_files_in_directory_listed directory filenames Hl).
    apply Forall_forall. intros p [Hin Hfile]%filter_In.
    apply in_map_iff in Hin as (name & <- & Hname).
    rewrite Forall_forall in Hnames.
    assert (Hlast : PosixPath.basename (PosixPath.join directory name) = name).
    { rewrite basename_last_component. apply last_component_join.
      by apply Hnames. }
    unfold Utils.get_last_element_from_path. rewrite Hlast. done.
Qed.

Lemma endswith_join root file : PyStr.endswith (PosixPath.join root file) file = true.
Proof.
  unfold PosixPath.join. destruct (PyStr.startswith file "/").
  { apply endswith_spec. by exists "". }
  destruct (_ || _).
  - apply endswith_append.
  - apply endswith_spec. exists (root +:+ "/"). by rewrite str_append_assoc.
Qed.

Lemma get_all_npy_files_in_directory_walked directory :
  Utils.get_all_npy_files_in_directory walk directory
  = flat_map (fun '(root, _, files) =>
                map (PosixPath.join root)
                  (List.filter (fun file => PyStr.endswith file ".npy") files))
      (walk directory).
Proof.
  unfold Utils.get_all_npy_files_in_directory.
  enough (Hgen : forall (triples : list (string * list string * list string)) acc,
    fold_left
      (fun npy_files '(root, _, files) =>
         fold_left
           (fun npy_files file =>
              if PyStr.endswith file ".npy"
              then npy_files ++ [PosixPath.join root file]
              else npy_files)
           files npy_files)
      triples acc
    = acc ++ flat_map (fun '(root, _, files) =>
                map (PosixPath.join root)
                  (List.filter (fun file => PyStr.endswith file ".npy") files))
               triples) by by rewrite Hgen.
  intros triples.
  induction triples as [|[[root dirs] files] triples IH]; intros acc; simpl.
  - by rewrite app_nil_r.
  - rewrite (fold_left_append_if (fun file => PyStr.endswith file ".npy")
               (PosixPath.join root) files acc).
    rewrite IH. by rewrite <- app_assoc.
Qed.

(** X9: every path that [get_all_npy_files_in_directory] returns ends
    with [.npy] and is a directory of the walk joined with one of its
    files; and every file of the walk whose name ends with [.npy] is
    returned. *)
Theorem get_all_npy_files_in_directory_npy directory :
  Forall (fun file_path =>
            PyStr.endswith file_path ".npy" = true /\
            exists root dirs files file,
              In (root, dirs, files) (walk directory) /\ In file files /\
              file_path = PosixPath.join root file)
    (Utils.get_all_npy_files_in_directory walk directory) /\
  (forall root dirs files file,
     In (root, dirs, files) (walk directory) -> In file files ->
     PyStr.endswith file ".npy" = true ->
     In (PosixPath.join root file)
       (Utils.get_all_npy_files_in_directory walk directory)).
Proof.
  rewrite get_all_npy_files_in_directory_walked. split.
  - apply Forall_forall. intros p Hin.
    apply in_flat_map in Hin as ([[root dirs] files] & Htriple & Hin).
    apply in_map_iff in Hin as (file & <- & [Hfile Hnpy]%filter_In).
    split.
    + by apply (endswith_trans _ file), Hnpy; apply endswith_join.
    + by exists root, dirs, files, file.
  - intros root dirs files file Htriple Hfile Hnpy.
    apply in_flat_map. exists (root, dirs, files). split; [done|].
    apply in_map_iff. exists file. split; [done|]. by apply filter_In.
Qed.

End Directories.

(** A directory with two regular files and a sub-directory. *)
Example get_all_files_in_directory_example :
  Utils.get_all_files_in_directory
    (fun d => if String.eqb d "data" then Ok ["a.npy"; "sub"; "b.txt"]
              else Raise FileNotFoundError)
    (fun p => negb (String.eqb p "data/sub"))
    "data"
  = ["data/a.npy"; "data/b.txt"].
Proof. reflexivity. Qed.

Example get_all_npy_files_in_directory_example :
  Utils.get_all_npy_files_in_directory
    (fun d => [(d, ["sub"], ["a.npy"; "b.txt"; ".npy"]);
               (PosixPath.join d "sub", [], ["c.npy"; "npy"])])
    "data"
  = ["data/a.npy"; "data/.npy"; "data/sub/c.npy"].
Proof. reflexivity. Qed.

Lemma get_all_files_in_directory_files_witness :
  let listdir := fun d : string =>
    if String.eqb d "data" then Ok ["a.npy"; "sub"; "b.txt"]
    else Raise FileNotFoundError in
  let isfile := fun p : string => negb (String.eqb p "data/sub") in
  Utils.get_all_files_in_directory listdir isfile "missing" = [] /\
  Forall (fun file_path =>
            isfile file_path = true /\
            In (Utils.get_last_element_from_path file_path) ["a.npy"; "sub"; "b.txt"] /\
            file_path = PosixPath.join "data"
                          (Utils.get_last_element_from_path file_path))
    (Utils.get_all_files_in_directory listdir isfile "data").
Proof.
  intros listdir isfile. split.
  - apply (proj1 (get_all_files_in_directory_files listdir isfile "missing")
             FileNotFoundError).
    reflexivity.
  - apply (proj2 (get_all_files_in_directory_files listdir isfile "data")
             ["a.npy"; "sub"; "b.txt"]).
    + reflexivity.
    + repeat constructor.
Defined.

Lemma get_all_npy_files_in_directory_npy_witness :
  let walk := fun d : string =>
    [(d, ["sub"], ["a.npy"; "b.txt"]); (PosixPath.join d "sub", [], ["c.npy"])] in
  In (PosixPath.join (PosixPath.join "data" "sub") "c.npy")
    (Utils.get_all_npy_files_in_directory walk "data").
Proof.
  intros walk.
  apply (proj2 (get_all_npy_files_in_directory_npy walk "data")
           (PosixPath.join "data" "sub") [] ["c.npy"] "c.npy").
  - right. by left.
  - by left.
  - reflexivity.
Defined.

(** ** More on the batch driver *)

Section Batches.
Context {V : Type} (llm_embed : list string -> string -> result V).
Implicit Types (texts xs ys calls : list string) (embeddings : list V).

Lemma for_text_prepend texts acc embeddings calls :
  Llm.for_text llm_embed texts (acc ++ embeddings) calls
  = LlmSpec.prepend acc (Llm.for_text llm_embed texts embeddings calls).
Proof.
  revert embeddings calls.
  induction texts as [|t texts IH]; intros embeddings calls; simpl; [done|].
  unfold Llm.bind, Llm.embed. destruct (llm_embed calls t) as [v|e]; [|done].
  by rewrite <- app_assoc, IH.
Qed.

Lemma for_text_app xs ys embeddings calls :
  Llm.for_text llm_embed (xs ++ ys) embeddings calls
  = match Llm.for_text llm_embed xs embeddings calls with
    | (Ok embeddings', calls') => Llm.for_text llm_embed ys embeddings' calls'
    | (Raise e, calls') => (Raise e, calls')
    end.
Proof.
  revert embeddings calls.
  induction xs as [|t xs IH]; intros embeddings calls; simpl; [done|].
  unfold Llm.bind, Llm.embed. destruct (llm_embed calls t) as [v|e]; [|done].
  apply IH.
Qed.

(** X10: a batch can be split: [get_embeddings] on [xs ++ ys] is
    [get_embeddings] on [xs] followed by [get_embeddings] on [ys], the
    two lists of vectors put together; a failure in either part is the
    failure of the whole, and after a failure in [xs] no text of [ys]
    reaches the provider. *)
Theorem get_embeddings_app xs ys calls :
  Llm.get_embeddings llm_embed (xs ++ ys) calls
  = match Llm.get_embeddings llm_embed xs calls with
    | (Ok embeddings1, calls1) =>
        match Llm.get_embeddings llm_embed ys calls1 with
        | (Ok embeddings2, calls2) => (Ok (embeddings1 ++ embeddings2), calls2)
        | (Raise e, calls2) => (Raise e, calls2)
        end
    | (Raise e, calls1) => (Raise e, calls1)
    end.
Proof.
  unfold Llm.get_embeddings, Llm.tqdm. rewrite for_text_app.
  destruct (Llm.for_text llm_embed xs [] calls) as [[embeddings1|e] calls1]; [|done].
  rewrite <- (app_nil_r embeddings1) at 1. rewrite for_text_prepend.
  by destruct (Llm.for_text llm_embed ys [] calls1) as [[embeddings2|e] calls2].
Qed.

Lemma for_text_fails_at texts embeddings calls k text e :
  texts !! k = Some text ->
  Llm.provider_answers llm_embed calls (take k texts) ->
  llm_embed (calls ++ take k texts) text = Raise e ->
  Llm.for_text llm_embed texts embeddings calls
  = (Raise e, calls ++ take (S k) texts).
Proof.
  revert texts embeddings calls.
  induction k as [|k IH]; intros [|t texts] embeddings calls Hk Hp He;
    try discriminate Hk.
  - injection Hk as ->. rewrite take_0, app_nil_r in He.
    by apply for_text_raises.
  - simpl in Hk, Hp, He.
    apply provider_answers_cons in Hp as [[v0 Hv0] Hp].
    simpl. unfold Llm.bind, Llm.embed. rewrite Hv0.
    rewrite (IH texts _ (calls ++ [t]) Hk Hp).
    + by rewrite <- app_assoc.
    + by rewrite <- app_assoc.
Qed.

(** X11: the batch stops at the first text the provider fails on: when
    the provider returns a vector for the texts before index [k] and
    raises [e] on text [k], [get_embeddings] raises [e], returns no
    vector, and the provider has been called with the texts up to [k]
    and with none after it. *)
Theorem get_embeddings_fails_fast texts calls k text e :
  texts !! k = Some text ->
  Llm.provider_answers llm_embed calls (take k texts) ->
  llm_embed (calls ++ take k texts) text = Raise e ->
  Llm.get_embeddings llm_embed texts calls
  = (Raise e, calls ++ take (S k) texts).
Proof.
  intros Hk Hp He. unfold Llm.get_embeddings, Llm.tqdm.
  by apply (for_text_fails_at texts [] calls k text e).
Qed.

Lemma for_text_ok_answers texts embeddings calls out calls' :
  Llm.for_text llm_embed texts embeddings calls = (Ok out, calls') ->
  Llm.provider_answers llm_embed calls texts.
Proof.
  revert embeddings calls.
  induction texts as [|t texts IH]; intros embeddings calls Hrun.
  - intros i text Hi. by destruct i.
  - simpl in Hrun. unfold Llm.bind, Llm.embed in Hrun.
    destruct (llm_embed calls t) as [v|e] eqn:Hv; [|discriminate].
    apply IH in Hrun. intros [|i] text Hi; simpl in Hi.
    + injection Hi as <-. exists v. by rewrite take_0, app_nil_r.
    + destruct (Hrun i text Hi) as [w Hw]. exists w.
      simpl. by rewrite <- app_assoc in Hw.
Qed.

(** X12: [get_embeddings] returns a list exactly when the provider
    returns a vector for every text of the batch. *)
Theorem get_embeddings_returns_iff texts calls :
  (exists embeddings calls',
      Llm.get_embeddings llm_embed texts calls = (Ok embeddings, calls')) <->
  Llm.provider_answers llm_embed calls texts.
Proof.
  unfold Llm.get_embeddings, Llm.tqdm. split.
  - intros (embeddings & calls' & Hrun).
    by apply (for_text_ok_answers texts [] calls embeddings calls').
  - intros Hp.
    destruct (for_text_answers llm_embed texts [] calls Hp) as (out & Hrun & _).
    by exists out, (calls ++ texts).
Qed.

End Batches.

Lemma get_embeddings_fails_fast_witness :
  Llm.get_embeddings Llm.stub_provider ["a"; "x"; "c"] []
  = (Raise (ProviderError "x"), [] ++ take 2 ["a"; "x"; "c"]).
Proof.
  apply (get_embeddings_fails_fast Llm.stub_provider ["a"; "x"; "c"] [] 1 "x"
           (ProviderError "x")).
  - reflexivity.
  - intros [|i] text Hi; simpl in Hi; [|by destruct i].
    injection Hi as <-. eexists. reflexivity.
  - reflexivity.
Defined.

(** ** More on the pooling methods *)

Section PoolingErrors.
Context {F : Type} {dtype : Dtype F}.
Implicit Types (rows : list (list F)).

Lemma np_array_ragged rows :
  ~ (exists D, uniform D rows) -> np_array rows = Raise ValueError.
Proof.
  intros Hragged. destruct (np_array rows) as [a|e] eqn:Ha.
  - exfalso. apply Hragged.
    apply np_array_inv in Ha as [[_ ->] | (D & _ & _ & Hu)].
    + exists 0. constructor.
    + by exists D.
  - destruct rows as [|r rs]; [discriminate|]. simpl in Ha.
    destruct (forallb _ rs); [discriminate|]. by injection Ha as <-.
Qed.

(** X13: when the token vectors are not all of one dimension, each of
    the three pooling methods raises [ValueError]. *)
Theorem pooling_ragged_raises rows :
  ~ (exists D, uniform D rows) ->
  average_pooling rows = Raise ValueError /\
  max_pooling rows = Raise ValueError /\
  concatenate_pooling rows = Raise ValueError.
Proof.
  intros Hragged. apply np_array_ragged in Hragged.
  unfold concatenate_pooling, average_pooling, max_pooling.
  by rewrite Hragged.
Qed.

(** X14: [max_pooling] and [concatenate_pooling] return an array exactly
    on the non-empty sequences of token vectors of one dimension, and
    [average_pooling] on those and on the empty sequence. *)
Theorem pooling_returns_iff rows :
  ((exists a, max_pooling rows = Ok a) <->
   rows <> [] /\ exists D, uniform D rows) /\
  ((exists a, concatenate_pooling rows = Ok a) <->
   rows <> [] /\ exists D, uniform D rows) /\
  ((exists a, average_pooling rows = Ok a) <-> exists D, uniform D rows).
Proof.
  assert (Hmax : (exists a, max_pooling rows = Ok a) <->
                 rows <> [] /\ exists D, uniform D rows).
  { split.
    - intros [a Ha]. unfold max_pooling in Ha.
      destruct (np_array rows) as [arr|e] eqn:Harr; [|discriminate].
      apply np_array_inv in Harr as [[-> ->] | (D & _ & Hne & Hu)];
        [discriminate|].
      split; [done | by exists D].
    - intros [Hne [D Hu]]. destruct rows as [|r rs]; [done|].
      rewrite (max_pooling_uniform r rs D Hu). by eexists. }
  assert (Havg : (exists a, average_pooling rows = Ok a) <->
                 exists D, uniform D rows).
  { split.
    - intros [a Ha]. unfold average_pooling in Ha.
      destruct (np_array rows) as [arr|e] eqn:Harr; [|discriminate].
      apply np_array_inv in Harr as [[-> ->] | (D & _ & Hne & Hu)].
      + exists 0. constructor.
      + by exists D.
    - intros [D Hu]. destruct rows as [|r rs]; [by eexists|].
      rewrite (average_pooling_uniform (r :: rs) D) by done. by eexists. }
  split_and!; [done| |done].
  split.
  - intros [a Ha]. apply Hmax. unfold concatenate_pooling in Ha.
    destruct (average_pooling rows); [|discriminate]. simpl in Ha.
    destruct (max_pooling rows) as [mx|e]; [by exists mx | discriminate].
  - intros [Hne [D Hu]]. unfold concatenate_pooling.
    rewrite (average_pooling_uniform rows D Hne Hu).
    destruct rows as [|r rs]; [done|].
    rewrite (max_pooling_uniform r rs D Hu). by eexists.
Qed.

End PoolingErrors.

Lemma pooling_ragged_raises_witness :
  average_pooling [[1; 2]; [3]]%float = Raise ValueError /\
  max_pooling [[1; 2]; [3]]%float = Raise ValueError /\
  concatenate_pooling [[1; 2]; [3]]%float = Raise ValueError.
Proof.
  apply (pooling_ragged_raises [[1; 2]; [3]]%float).
  intros [D Hu]. inversion Hu as [|?? H1 Hu']. inversion Hu' as [|?? H2 _].
  simpl in H1, H2. congruence.
Defined.

(** ** NaN and bounds in the pooling of binary64 vectors *)

Section Float64Pooling.
Implicit Types (a b : float) (xs : list float) (rows : list (list float)).

(** X15: a NaN in element [i] of some token vector makes element [i] of
    the output of [average_pooling] a NaN. *)
Theorem average_pooling_nan rows D i :
  rows <> [] -> uniform D rows -> i < D ->
  existsb PrimFloat.is_nan (column i rows) = true ->
  exists v, average_pooling rows = Ok (Vector v) /\
    PrimFloat.is_nan (nth i v zero) = true.
Proof.
  intros Hne Hu Hi Hnan. eexists. split; [by apply average_pooling_uniform|].
  pose proof (length_add_reduce_rows rows D Hu) as Hlen.
  rewrite nth_map_zero by lia.
  rewrite nth_add_reduce_rows by done.
  apply is_nan_div. destruct D as [|[|D]]; [by apply is_nan_sum| |by apply is_nan_sum].
  apply is_nan_add. right. by apply is_nan_pairwise_sum.
Qed.

(** X16: element [i] of the output of [max_pooling] is a NaN exactly when
    element [i] of some token vector is. *)
Theorem max_pooling_nan_iff rows D i :
  rows <> [] -> uniform D rows -> i < D ->
  exists v, max_pooling rows = Ok (Vector v) /\
    PrimFloat.is_nan (nth i v zero) = existsb PrimFloat.is_nan (column i rows).
Proof.
  destruct rows as [|r rs]; [congruence|]. intros _ Hu Hi.
  eexists. split; [by apply (max_pooling_uniform r rs D)|].
  inversion Hu as [|?? Hr Hrs]; subst.
  rewrite (nth_fold_zip_with maximum rs r (length r)) by done.
  apply (is_nan_maximum_of (column i rs) (nth i r zero)).
Qed.

(** X17: when no element [i] of a token vector is a NaN, element [i] of
    the output of [max_pooling] is element [i] of one of the token
    vectors, and no token vector has a larger element [i]. *)
Theorem max_pooling_upper_bound rows D i :
  rows <> [] -> uniform D rows -> i < D ->
  existsb PrimFloat.is_nan (column i rows) = false ->
  exists v, max_pooling rows = Ok (Vector v) /\
    (exists r, In r rows /\ nth i v zero = nth i r zero) /\
    (forall r, In r rows -> PrimFloat.leb (nth i r zero) (nth i v zero) = true).
Proof.
  destruct rows as [|r rs]; [congruence|]. intros _ Hu Hi Hnan.
  eexists. split; [by apply (max_pooling_uniform r rs D)|].
  inversion Hu as [|?? Hr Hrs]; subst.
  rewrite (nth_fold_zip_with maximum rs r (length r)) by done.
  change (existsb PrimFloat.is_nan (column i (r :: rs)))
    with (PrimFloat.is_nan (nth i r zero) || existsb PrimFloat.is_nan (column i rs))
    in Hnan.
  apply orb_false_iff in Hnan as [Hhead Hcol].
  destruct (maximum_of_upper (column i rs) (nth i r zero) Hhead Hcol) as [Hin Hall].
  unfold maximum_of in Hin, Hall. split.
  - apply list_elem_of_In in Hin.
    change (nth i r zero :: column i rs) with (column i (r :: rs)) in Hin.
    unfold column in Hin. apply in_map_iff in Hin as (r' & Heq & Hin').
    by exists r'.
  - intros r' Hrow. rewrite Forall_forall in Hall. apply Hall.
    change (nth i r zero :: column i rs) with (column i (r :: rs)).
    unfold column. apply in_map_iff. by exists r'.
Qed.

Lemma existsb_is_nan_incl xs ys :
  incl xs ys -> existsb PrimFloat.is_nan ys = false ->
  existsb PrimFloat.is_nan xs = false.
Proof.
  intros Hincl Hys. apply not_true_iff_false. intros Hxs.
  apply existsb_exists in Hxs as (x & Hin & Hx).
  apply not_true_iff_false in Hys. apply Hys.
  apply existsb_exists. exists x. split; [by apply Hincl | done].
Qed.

Lemma column_incl rows rows' i :
  incl rows rows' -> incl (column i rows) (column i rows').
Proof.
  intros Hincl x Hin. unfold column in *.
  apply in_map_iff in Hin as (r & <- & Hr). apply in_map_iff.
  exists r. split; [done | by apply Hincl].
Qed.

(** X18: more tokens never lower the maximum: when every token vector of
    [rows] is among those of [rows'] and no element [i] of a token vector
    of [rows'] is a NaN, element [i] of [max_pooling rows] is at most
    element [i] of [max_pooling rows']. *)
Theorem max_pooling_monotone rows rows' D i :
  rows <> [] -> uniform D rows -> uniform D rows' -> incl rows rows' ->
  i < D -> existsb PrimFloat.is_nan (column i rows') = false ->
  exists v v',
    max_pooling rows = Ok (Vector v) /\ max_pooling rows' = Ok (Vector v') /\
    PrimFloat.leb (nth i v zero) (nth i v' zero) = true.
Proof.
  intros Hne Hu Hu' Hincl Hi Hnan'.
  pose proof (existsb_is_nan_incl _ _ (column_incl rows rows' i Hincl) Hnan')
    as Hnan.
  destruct rows as [|r rs]; [done|]. destruct rows' as [|r' rs'].
  { by destruct (Hincl r (or_introl eq_refl)). }
  rewrite (max_pooling_uniform r rs D Hu), (max_pooling_uniform r' rs' D Hu').
  do 2 eexists. split_and!; [done..|].
  inversion Hu as [|?? Hr Hrs]. inversion Hu' as [|?? Hr' Hrs']. subst.
  rewrite (nth_fold_zip_with maximum rs r (length r)) by done.
  rewrite (nth_fold_zip_with maximum rs' r' (length r)) by done.
  change (existsb PrimFloat.is_nan (column i (r :: rs)))
    with (PrimFloat.is_nan (nth i r zero) || existsb PrimFloat.is_nan (column i rs))
    in Hnan.
  change (existsb PrimFloat.is_nan (column i (r' :: rs')))
    with (PrimFloat.is_nan (nth i r' zero) || existsb PrimFloat.is_nan (column i rs'))
    in Hnan'.
  apply orb_false_iff in Hnan as [Hh Hc], Hnan' as [Hh' Hc'].
  destruct (maximum_of_upper (column i rs) (nth i r zero) Hh Hc) as [Hin _].
  destruct (maximum_of_upper (column i rs') (nth i r' zero) Hh' Hc') as [_ Hall'].
  unfold maximum_of in Hin, Hall'. rewrite Forall_forall in Hall'.
  apply Hall'. apply (column_incl (r :: rs) (r' :: rs') i Hincl).
  by apply list_elem_of_In.
Qed.

End Float64Pooling.

Lemma average_pooling_nan_witness :
  exists v, average_pooling [[1; nan]; [3; 2]]%float = Ok (Vector v) /\
    PrimFloat.is_nan (nth 1 v zero) = true.
Proof.
  apply (average_pooling_nan [[1; nan]; [3; 2]]%float 2 1);
    [done | by repeat constructor | lia | reflexivity].
Defined.

Lemma max_pooling_nan_iff_witness :
  exists v, max_pooling [[1; nan]; [3; 2]]%float = Ok (Vector v) /\
    PrimFloat.is_nan (nth 1 v zero)
    = existsb PrimFloat.is_nan (column 1 [[1; nan]; [3; 2]]%float).
Proof.
  apply (max_pooling_nan_iff [[1; nan]; [3; 2]]%float 2 1);
    [done | by repeat constructor | lia].
Defined.

Lemma max_pooling_upper_bound_witness :
  exists v, max_pooling [[1; 5]; [3; 2]; [0; 4]]%float = Ok (Vector v) /\
    (exists r, In r [[1; 5]; [3; 2]; [0; 4]]%float /\ nth 0 v zero = nth 0 r zero) /\
    (forall r, In r [[1; 5]; [3; 2]; [0; 4]]%float ->
       PrimFloat.leb (nth 0 r zero) (nth 0 v zero) = true).
Proof.
  apply (max_pooling_upper_bound [[1; 5]; [3; 2]; [0; 4]]%float 2 0);
    [done | by repeat constructor | lia | reflexivity].
Defined.

Lemma max_pooling_monotone_witness :
  exists v v',
    max_pooling [[1; 5]; [3; 2]]%float = Ok (Vector v) /\
    max_pooling [[1; 5]; [3; 2]; [0; 7]]%float = Ok (Vector v') /\
    PrimFloat.leb (nth 1 v zero) (nth 1 v' zero) = true.
Proof.
  apply (max_pooling_monotone [[1; 5]; [3; 2]]%float
           [[1; 5]; [3; 2]; [0; 7]]%float 2 1);
    [done | by repeat constructor | by repeat constructor | | lia | reflexivity].
  intros r [<- | [<- | []]]; [by left | by right; left].
Defined.

(** ** The constructor *)

Section Init.
Context {Handle : Type}.
Variable hf_hub_download : string -> string -> result string.
Variable Llama : LlamaCppEmbeddings.llama_kwargs -> result Handle.
Implicit Types (fs : gmap string file) (m : gmap string json).

(** X19: the context length the model is loaded with is the one the
    file [configs/context_lenght.json] has for [repo_id], whatever the
    argument [n_ctx]; for a [repo_id] the file does not have, it is the
    string ["Key not found"].  All layers are offloaded, the pooling is
    the mean and embeddings are on. *)
Theorem init_context_length fs m repo_id filename n_ctx path :
  fs !! "configs/context_lenght.json" = Some (JsonText (JObj m)) ->
  hf_hub_download repo_id filename = Ok path ->
  LlamaCppEmbeddings.init hf_hub_download Llama fs repo_id filename n_ctx
  = (llm <- Llama {| LlamaCppEmbeddings.kw_model_path := path;
                     LlamaCppEmbeddings.kw_n_ctx :=
                       default (JStr "Key not found") (m !! repo_id);
                     LlamaCppEmbeddings.kw_n_gpu_layers := -1;
                     LlamaCppEmbeddings.kw_pooling_type :=
                       LlamaCppEmbeddings.LLAMA_POOLING_TYPE_MEAN;
                     LlamaCppEmbeddings.kw_embedding := true |} ;;
     Ok {| LlamaCppEmbeddings.model_path := path;
           LlamaCppEmbeddings.llm := llm |}).
Proof.
  intros Hf Hpath. unfold LlamaCppEmbeddings.init.
  destruct (m !! repo_id) as [v|] eqn:Hm.
  - rewrite (get_value_by_key_json_found fs _ repo_id m v Hf Hm). simpl.
    by rewrite Hpath.
  - rewrite (get_value_by_key_json_missing fs _ repo_id m Hf Hm). simpl.
    by rewrite Hpath.
Qed.

(** X20: the argument [n_ctx] is no fallback: when the file of context
    lengths is missing the constructor raises [FileNotFoundError],
    whatever [n_ctx] it is given and whatever the hub and [llama_cpp]
    would return. *)
Theorem init_without_config fs repo_id filename n_ctx :
  fs !! "configs/context_lenght.json" = None ->
  LlamaCppEmbeddings.init hf_hub_download Llama fs repo_id filename n_ctx
  = Raise FileNotFoundError.
Proof.
  intros Hf. unfold LlamaCppEmbeddings.init, Utils.get_value_by_key_json,
    Utils.read_json.
  by rewrite Hf.
Qed.

End Init.

Lemma init_context_length_witness :
  LlamaCppEmbeddings.init (fun repo_id filename => Ok ("cache/" +:+ filename))
    (fun kw => Ok kw) Utils.context_lengths "org/model-b" "model.gguf" 512
  = (llm <- Ok {| LlamaCppEmbeddings.kw_model_path := "cache/" +:+ "model.gguf";
                  LlamaCppEmbeddings.kw_n_ctx :=
                    default (JStr "Key not found")
                      (({[ "org/model-a" := JInt 512 ]} : gmap string json)
                         !! "org/model-b");
                  LlamaCppEmbeddings.kw_n_gpu_layers := -1;
                  LlamaCppEmbeddings.kw_pooling_type :=
                    LlamaCppEmbeddings.LLAMA_POOLING_TYPE_MEAN;
                  LlamaCppEmbeddings.kw_embedding := true |} ;;
     Ok {| LlamaCppEmbeddings.model_path := "cache/" +:+ "model.gguf";
           LlamaCppEmbeddings.llm := llm |}).
Proof.
  apply (init_context_length (fun repo_id filename => Ok ("cache/" +:+ filename))
           (fun kw => Ok kw) Utils.context_lengths
           {[ "org/model-a" := JInt 512 ]} "org/model-b" "model.gguf" 512
           ("cache/" +:+ "model.gguf")); reflexivity.
Defined.

Lemma init_without_config_witness :
  LlamaCppEmbeddings.init (fun repo_id filename => Ok ("cache/" +:+ filename))
    (fun kw => Ok kw) Utils.prompts "org/model-a" "model.gguf" 512
  = Raise FileNotFoundError.
Proof.
  apply (init_without_config (fun repo_id filename => Ok ("cache/" +:+ filename))
           (fun kw => Ok kw) Utils.prompts "org/model-a" "model.gguf" 512).
  reflexivity.
Defined.

(** An unknown model is loaded with the message for context length. *)
Example init_unknown_model :
  LlamaCppEmbeddings.init (fun repo_id filename => Ok ("cache/" +:+ filename))
    (fun kw => Ok (LlamaCppEmbeddings.kw_n_ctx kw))
    Utils.context_lengths "org/model-b" "model.gguf" 512
  = Ok {| LlamaCppEmbeddings.model_path := "cache/model.gguf";
          LlamaCppEmbeddings.llm := JStr "Key not found" |}.
Proof. reflexivity. Qed.

(** ** Saving and reading JSON *)

Section JsonInduction.






End JsonInduction.

Section Sequence.
Context {A : Type}.
Implicit Types (m : gmap string (result A)) (rs : list (result A)).

Lemma sequence_list_ok (l : list A) : Json.sequence_list (map Ok l) = Ok l.
Proof. induction l as [|a l IH]; simpl; [done | by rewrite IH]. Qed.


Lemma sequence_list_In rs e :
  In (Raise e) rs -> exists e', Json.sequence_list rs = Raise e'.
Proof.
  induction rs as [|[a|e'] rs IH]; simpl; [done| |].
  - intros [? | Hin]; [done|]. destruct (IH Hin) as [e' ->]. by exists e'.
  - intros _. by exists e'.
Qed.

(** [first_error] finds an exception exactly when there is one. *)
Lemma first_error_spec m :
  match Json.first_error m with
  | Some e => exists k, m !! k = Some (Raise e)
  | None => forall k r, m !! k = Some r -> exists a, r = Ok a
  end.
Proof.
  unfold Json.first_error.
  apply (map_fold_weak_ind
           (fun acc m => match acc with
                         | Some e => exists k, m !! k = Some (Raise e)
                         | None => forall k r, m !! k = Some r -> exists a, r = Ok a
                         end)).
  - intros k r Hk. by rewrite lookup_empty in Hk.
  - intros i [a|e] m' acc Hi IH.
    + destruct acc as [e'|].
      * destruct IH as [k Hk]. exists k. rewrite lookup_insert_ne; [done|].
        intros ->. congruence.
      * intros k r. rewrite lookup_insert. case_decide.
        -- intros [= <-]. by exists a.
        -- apply IH.
    + exists i. by rewrite lookup_insert_eq.
Qed.

Lemma sequence_map_ok (m : gmap string A) : Json.sequence_map (Ok <$> m) = Ok m.
Proof.
  unfold Json.sequence_map.
  pose proof (first_error_spec (Ok <$> m)) as Hfirst.
  destruct (Json.first_error (Ok <$> m)) as [e|].
  - destruct Hfirst as [k Hk]. rewrite lookup_fmap in Hk.
    by destruct (m !! k).
  - f_equal. apply map_eq. intros k.
    rewrite lookup_omap, lookup_fmap. by destruct (m !! k).
Qed.



End Sequence.

Section Encoder.
Implicit Types (other : pyval -> result json) (o : pyval) (j : json).

Lemma encode_PList other xs :
  Json.encode other (PList xs)
  = (js <- Json.sequence_list (map (Json.encode other) xs) ;; Ok (JArr js)).
Proof. reflexivity. Qed.

Lemma encode_PDict other m :
  Json.encode other (PDict m)
  = (js <- Json.sequence_map (Json.encode other <$> m) ;; Ok (JObj js)).
Proof. reflexivity. Qed.

Lemma sequence_list_map_ok {A B : Type} (f : B -> A) (l : list B) :
  Json.sequence_list (map (fun x => Ok (f x)) l) = Ok (map f l).
Proof. by rewrite <- (map_map f Ok), sequence_list_ok. Qed.

Lemma encode_floats other (xs : list float) :
  Json.encode other (PList (map PFloat xs)) = Ok (JArr (map JFloat xs)).
Proof.
  rewrite encode_PList, map_map. simpl.
  by rewrite (sequence_list_map_ok JFloat).
Qed.

Lemma encode_tolist other a : Json.encode other (tolist a) = Ok (array_json a).
Proof.
  destruct a as [x|xs|d rows]; simpl tolist; [done | apply encode_floats |].
  rewrite encode_PList, map_map.
  replace (map (fun r => Json.encode other (PList (map PFloat r))) rows)
    with (map (fun r => Ok (JArr (map JFloat r))) rows).
  { by rewrite (sequence_list_map_ok (fun r => JArr (map JFloat r))). }
  apply map_ext. intros r. by rewrite encode_floats.
Qed.

Lemma dumps_arrays (arrays : gmap string (ndarray float)) :
  Json.dumps Utils.convert_ndarray_to_list (PDict (PArray <$> arrays))
  = Ok (JObj (array_json <$> arrays)).
Proof.
  unfold Json.dumps. rewrite encode_PDict, <- map_fmap_compose.
  replace ((_ ∘ PArray) <$> arrays) with (Ok <$> (array_json <$> arrays)).
  { by rewrite sequence_map_ok. }
  rewrite <- map_fmap_compose. apply map_fmap_ext. intros k a _. simpl.
  by rewrite encode_tolist.
Qed.




End Encoder.

Section SaveJson.
Variable open_w : string -> result unit.
Implicit Types (fs : gmap string file) (j : json).

(** X22: numpy arrays are saved as lists: a [dict] of arrays that was
    saved is read back as the [dict] of their nested lists of numbers. *)
Theorem save_json_arrays fs (arrays : gmap string (ndarray float)) filename :
  open_w filename = Ok tt ->
  exists fs',
    Utils.save_json open_w (PDict (PArray <$> arrays)) filename fs = (Ok tt, fs') /\
    Utils.read_json fs' filename = Ok (JObj (array_json <$> arrays)).
Proof.
  intros Hopen. exists (<[filename := JsonText (JObj (array_json <$> arrays))]> fs).
  unfold Utils.save_json. rewrite Hopen, dumps_arrays. split; [done|].
  unfold Utils.read_json. by rewrite lookup_insert_eq.
Qed.


End SaveJson.

(** X24: [np.array(rows).tolist()] is [rows]: the array built from a
    list of token vectors is converted back into that list. *)
Theorem convert_ndarray_to_list_np_array (rows : list (list float)) a :
  np_array rows = Ok a ->
  Utils.convert_ndarray_to_list (PArray a)
  = Ok (PList (map (fun r => PList (map PFloat r)) rows)).
Proof.
  intros Ha. apply np_array_inv in Ha as [[-> ->] | (D & -> & _ & _)]; done.
Qed.

Lemma save_json_arrays_witness :
  exists fs',
    Utils.save_json (fun _ => Ok tt)
      (PDict (PArray <$> {[ "embedding" := Vector [1; 2]%float ]}))
      "results/results.json" ∅ = (Ok tt, fs') /\
    Utils.read_json fs' "results/results.json"
    = Ok (JObj (array_json <$> {[ "embedding" := Vector [1; 2]%float ]})).
Proof.
  apply (save_json_arrays (fun _ => Ok tt) ∅
           {[ "embedding" := Vector [1; 2]%float ]} "results/results.json").
  reflexivity.
Defined.


Lemma convert_ndarray_to_list_np_array_witness :
  Utils.convert_ndarray_to_list (PArray (Matrix 2 [[1; 2]; [3; 4]]%float))
  = Ok (PList (map (fun r => PList (map PFloat r)) [[1; 2]; [3; 4]]%float)).
Proof.
  apply (convert_ndarray_to_list_np_array [[1; 2]; [3; 4]]%float
           (Matrix 2 [[1; 2]; [3; 4]]%float)).
  reflexivity.
Defined.

Example save_json_example :
  Utils.read_json
    (snd (Utils.save_json (fun _ => Ok tt)
            (PDict {[ "embedding" := PArray (Vector [1; 2]%float) ]})
            "out.json" ∅))
    "out.json"
  = Ok (JObj {[ "embedding" := JArr [JFloat 1; JFloat 2] ]}).
Proof. by vm_compute. Qed.

(** ** Checking and creating directories *)

Section Checks.
Context {S : Type}.
Variable exists_ : S -> string -> bool.
Variable isfile : S -> string -> bool.
Variable isdir : S -> string -> bool.
Variable makedirs : S -> string -> bool * S.

(** X25: a directory that [create_directory] has created is there: when
    a successful [os.makedirs] leaves the path an existing directory,
    then after [create_directory] returned [True] both
    [check_directory_exists] and a second [create_directory] raise
    [FileExistsError], and the second call changes nothing. *)
Theorem create_directory_then_check s s' directory_path :
  (forall s0 s1 p, makedirs s0 p = (true, s1) ->
     exists_ s1 p = true /\ isdir s1 p = true) ->
  Utils.create_directory exists_ makedirs s directory_path
  = (Os.Returned true, s') ->
  Utils.check_directory_exists exists_ isdir s' directory_path
  = Os.Raised Os.FileExistsError /\
  Utils.create_directory exists_ makedirs s' directory_path
  = (Os.Raised Os.FileExistsError, s').
Proof.
  intros Hmk Hcreate. unfold Utils.create_directory in Hcreate.
  destruct (exists_ s directory_path); [discriminate|].
  destruct (makedirs s directory_path) as [[] s1] eqn:Hmake; [|discriminate].
  injection Hcreate as <-. destruct (Hmk _ _ _ Hmake) as [Hex Hdir].
  unfold Utils.check_directory_exists, Utils.create_directory.
  by rewrite Hex, Hdir.
Qed.

(** X26: every path that [get_all_files_in_directory] returns is one on
    which [check_file_not_exists] raises [FileExistsError]. *)
Theorem get_all_files_in_directory_checked
    (listdir : string -> result (list string)) s directory :
  Forall (fun file_path =>
            Utils.check_file_not_exists isfile s file_path
            = Os.Raised Os.FileExistsError)
    (Utils.get_all_files_in_directory listdir (isfile s) directory).
Proof.
  destruct (listdir directory) as [filenames|e] eqn:Hl.
  - rewrite (get_all_files_in_directory_listed listdir (isfile s) directory
               filenames Hl).
    apply Forall_forall. intros p [_ Hfile]%filter_In.
    unfold Utils.check_file_not_exists. by rewrite Hfile.
  - unfold Utils.get_all_files_in_directory. rewrite Hl. constructor.
Qed.

End Checks.

Lemma create_directory_then_check_witness :
  let exists_ := fun (s : list string) p => bool_decide (p ∈ s) in
  let makedirs := fun (s : list string) p => (true, p :: s) in
  Utils.check_directory_exists exists_ exists_ ["results"] "results"
  = Os.Raised Os.FileExistsError /\
  Utils.create_directory exists_ makedirs ["results"] "results"
  = (Os.Raised Os.FileExistsError, ["results"]).
Proof.
  intros exists_ makedirs.
  apply (create_directory_then_check exists_ exists_ makedirs [] ["results"]
           "results").
  - intros s0 s1 p [= <-]. unfold exists_.
    rewrite bool_decide_eq_true_2; [done | by left].
  - reflexivity.
Defined.

(** ** More on the configuration lookups *)

Section MoreLookups.
Implicit Types (fs : gmap string file) (m entry : gmap string json).

(** X27: on a file that holds a mapping, [get_value_by_key_json] returns
    the value the key is bound to; it returns the message
    ["Key not found"] exactly when the key is absent or bound to that
    very string. *)
Theorem get_value_by_key_json_message fs path key m :
  fs !! path = Some (JsonText (JObj m)) ->
  Utils.get_value_by_key_json fs path key
  = Ok (default (JStr "Key not found") (m !! key)) /\
  (Utils.get_value_by_key_json fs path key = Ok (JStr "Key not found") <->
   m !! key = None \/ m !! key = Some (JStr "Key not found")).
Proof.
  intros Hf. destruct (m !! key) as [v|] eqn:Hk; simpl.
  - rewrite (get_value_by_key_json_found fs path key m v Hf Hk).
    split; [done|]. split.
    + intros [= ->]. by right.
    + by intros [? | [= ->]].
  - rewrite (get_value_by_key_json_missing fs path key m Hf Hk).
    split; [done|]. split; [by left | done].
Qed.

(** X28: on a file that holds a mapping, [get_prompt] returns a pair of
    prompts exactly when the key is bound to a mapping that has both
    ["system_prompt"] and ["user_prompt"], and the pair is their values
    in that order. *)
Theorem get_prompt_returns_iff fs path key m system_prompt user_prompt :
  fs !! path = Some (JsonText (JObj m)) ->
  Utils.get_prompt fs key path = Ok (system_prompt, user_prompt) <->
  exists entry,
    m !! key = Some (JObj entry) /\
    entry !! "system_prompt" = Some system_prompt /\
    entry !! "user_prompt" = Some user_prompt.
Proof.
  intros Hf. unfold Utils.get_prompt.
  rewrite (read_json_object fs path _ Hf). simpl.
  destruct (m !! key) as [v|] eqn:Hk.
  - rewrite bool_decide_eq_true_2 by by eexists.
    destruct v as [| | | | | |entry]; simpl;
      try (split; [done | by intros (? & [= ?] & _)]).
    destruct (entry !! "system_prompt") as [sp|] eqn:Hsp; simpl.
    + destruct (entry !! "user_prompt") as [up|] eqn:Hup; simpl.
      * split.
        -- intros [= <- <-]. by exists entry.
        -- intros (entry' & [= <-] & Hsp' & Hup'). congruence.
      * split; [done|]. intros (entry' & [= <-] & _ & Hup'). congruence.
    + split; [done|]. intros (entry' & [= <-] & Hsp' & _). congruence.
  - rewrite bool_decide_eq_false_2 by by intros [? ?].
    split; [done | by intros (? & ? & _)].
Qed.

(** X29: a file whose JSON value is not a mapping serves neither lookup:
    [get_value_by_key_json] raises [AttributeError] and [get_prompt]
    raises an exception, [KeyError] or [TypeError]. *)
Theorem lookup_not_a_mapping fs path key data :
  fs !! path = Some (JsonText data) ->
  (forall m, data <> JObj m) ->
  Utils.get_value_by_key_json fs path key = Raise AttributeError /\
  (Utils.get_prompt fs key path = Raise TypeError \/
   exists msg, Utils.get_prompt fs key path = Raise (KeyError msg)).
Proof.
  intros Hf Hdata. unfold Utils.get_value_by_key_json, Utils.get_prompt.
  rewrite (read_json_object fs path _ Hf).
  destruct data as [| | | |s|xs|m]; simpl; try (split; [done | by left]).
  - split; [done|]. destruct (Utils.is_substring key s); simpl; [by left|].
    right. by eexists.
  - split; [done|]. destruct (existsb _ xs); simpl; [by left|].
    right. by eexists.
  - by destruct (Hdata m).
Qed.

End MoreLookups.

Lemma get_value_by_key_json_message_witness :
  Utils.get_value_by_key_json Utils.context_lengths
    "configs/context_lenght.json" "org/model-a"
  = Ok (default (JStr "Key not found")
          (({[ "org/model-a" := JInt 512 ]} : gmap string json) !! "org/model-a")) /\
  (Utils.get_value_by_key_json Utils.context_lengths
     "configs/context_lenght.json" "org/model-a" = Ok (JStr "Key not found") <->
   ({[ "org/model-a" := JInt 512 ]} : gmap string json) !! "org/model-a" = None \/
   ({[ "org/model-a" := JInt 512 ]} : gmap string json) !! "org/model-a"
   = Some (JStr "Key not found")).
Proof.
  apply (get_value_by_key_json_message Utils.context_lengths
           "configs/context_lenght.json" "org/model-a"
           {[ "org/model-a" := JInt 512 ]}).
  reflexivity.
Defined.

Lemma get_prompt_returns_iff_witness :
  Utils.get_prompt Utils.prompts "summary" "configs/prompts.json"
  = Ok (JStr "You summarise.", JStr "Summarise this.") <->
  exists entry,
    ({[ "summary" :=
          JObj (<[ "system_prompt" := JStr "You summarise." ]>
                {[ "user_prompt" := JStr "Summarise this." ]}) ]}
       : gmap string json) !! "summary" = Some (JObj entry) /\
    entry !! "system_prompt" = Some (JStr "You summarise.") /\
    entry !! "user_prompt" = Some (JStr "Summarise this.").
Proof.
  apply (get_prompt_returns_iff Utils.prompts "configs/prompts.json" "summary").
  reflexivity.
Defined.

Lemma lookup_not_a_mapping_witness :
  let fs : gmap string file :=
    {[ "configs/prompts.json" := JsonText (JArr [JStr "summary"]) ]} in
  Utils.get_value_by_key_json fs "configs/prompts.json" "summary"
  = Raise AttributeError /\
  (Utils.get_prompt fs "summary" "configs/prompts.json" = Raise TypeError \/
   exists msg,
     Utils.get_prompt fs "summary" "configs/prompts.json" = Raise (KeyError msg)).
Proof.
  intros fs.
  apply (lookup_not_a_mapping fs "configs/prompts.json" "summary"
           (JArr [JStr "summary"])).
  - reflexivity.
  - discriminate.
Defined.
